(** * Barycentric texture mapping of the HTML5 canvas image-distortion demo

    A shallow embedding of [map_triangle], [cartesian_to_barycentric],
    [barycentric_to_cartesian] and the vector helpers of
    [2012-12-12-HTML5-Canvas-Image-Distortion/image-distortion-demo.js].

    Numbers.  A JavaScript number is an IEEE 754 double: a finite value,
    one of the two infinities, or NaN.  A finite value is modelled by the
    rational it denotes ([Qc]), and every sum, difference, product and
    quotient of finite values is [round]ed.  The code is embedded once, for
    any rounding; two roundings are given:
    - [binary64], the rounding of the doubles (to nearest, ties to even,
      53 bits, gradual underflow, overflow to the infinities);
    - [exact_arithmetic], which does not round, for the statements that
      are about exact rational arithmetic.
    The model has one zero; it stands for [+0], which is the only zero the
    denominator of [cartesian_to_barycentric] can take (a difference of two
    equal products of sums of squares).  Where the sign of a zero shows in
    no other way it is not tracked.  The loop counters and the dimensions
    of an image are natural numbers; as numbers they are exact, which they
    are in doubles below [2 ^ 53].

    Pixel arrays.  [ImageData.data] is a [Uint8ClampedArray]: a fixed-length
    array of bytes living in a store, addressed by reference.  A read out of
    range gives [undefined], a write out of range is ignored and every
    written value goes through the [ToUint8Clamp] conversion. *)

From Stdlib Require Import QArith Qcanon Qround Qpower ZArith Lia Lqa Field.
From Stdlib Require Import Init.Byte.
From stdpp Require Import base numbers list gmap.

Local Open Scope Qc_scope.

(* ===================================================================== *)
(** ** Numbers *)
(* ===================================================================== *)

Inductive number : Type :=
  | Fin (q : Qc)
  | PInf
  | NInf
  | NaN.

Declare Scope num_scope.
Delimit Scope num_scope with num.
Bind Scope num_scope with number.

(** What an arithmetic operation does with the exact result of two finite
    operands. *)
Class Rounding : Type := round : Qc -> number.

(** Integers as numbers. *)
Definition zq (z : Z) : Qc := Q2Qc (inject_Z z).
Definition of_Z (z : Z) : number := Fin (zq z).
Definition of_nat (n : nat) : number := of_Z (Z.of_nat n).

Definition is_finite (a : number) : bool :=
  match a with Fin _ => true | _ => false end.

(** The infinity (or NaN) that a product or quotient with an infinite
    or zero operand takes, from the sign of the other operand. *)
Definition inf_of_sign (c : comparison) : number :=
  match c with Gt => PInf | Lt => NInf | Eq => NaN end.

Definition nneg (a : number) : number :=
  match a with
  | Fin x => Fin (- x)
  | PInf => NInf
  | NInf => PInf
  | NaN => NaN
  end.

Section Arithmetic.

Context {R : Rounding}.

Definition nadd (a b : number) : number :=
  match a, b with
  | NaN, _ | _, NaN => NaN
  | Fin x, Fin y => round (x + y)
  | Fin _, PInf | PInf, Fin _ | PInf, PInf => PInf
  | Fin _, NInf | NInf, Fin _ | NInf, NInf => NInf
  | PInf, NInf | NInf, PInf => NaN
  end.

Definition nsub (a b : number) : number := nadd a (nneg b).

Definition nmul (a b : number) : number :=
  match a, b with
  | NaN, _ | _, NaN => NaN
  | Fin x, Fin y => round (x * y)
  | Fin x, PInf | PInf, Fin x => inf_of_sign (x ?= 0)
  | Fin x, NInf | NInf, Fin x => inf_of_sign (0 ?= x)
  | PInf, PInf | NInf, NInf => PInf
  | PInf, NInf | NInf, PInf => NInf
  end.

Definition ndiv (a b : number) : number :=
  match a, b with
  | NaN, _ | _, NaN => NaN
  | Fin x, Fin y =>
      if Qc_eq_bool y 0 then inf_of_sign (x ?= 0) else round (x / y)
  | Fin _, PInf | Fin _, NInf => Fin 0
  | PInf, Fin y => match y ?= 0 with Lt => NInf | _ => PInf end
  | NInf, Fin y => match y ?= 0 with Lt => PInf | _ => NInf end
  | PInf, PInf | PInf, NInf | NInf, PInf | NInf, NInf => NaN
  end.

End Arithmetic.

(** [a <= b]; every comparison with NaN is false. *)
Definition nle (a b : number) : bool :=
  match a, b with
  | NaN, _ | _, NaN => false
  | Fin x, Fin y => Qle_bool x y
  | NInf, _ => true
  | _, PInf => true
  | Fin _, NInf | PInf, Fin _ | PInf, NInf => false
  end.

(** [a >= b] *)
Definition nge (a b : number) : bool := nle b a.

(** [Math.floor]: the floor of a double is a double. *)
Definition floor (a : number) : number :=
  match a with
  | Fin x => of_Z (Qfloor x)
  | _ => a
  end.

Infix "+" := nadd : num_scope.
Infix "-" := nsub : num_scope.
Infix "*" := nmul : num_scope.
Infix "/" := ndiv : num_scope.
Infix "<=?" := nle : num_scope.
Infix ">=?" := nge (at level 70) : num_scope.
Notation "0" := (Fin 0%Qc) : num_scope.
Notation "1" := (Fin 1%Qc) : num_scope.

(** *** The two roundings *)

Definition exact_arithmetic : Rounding := Fin.

(** [2 ^ e], also for negative [e]. *)
Definition pow2 (e : Z) : Qc :=
  if (0 <=? e)%Z then zq (2 ^ e) else / zq (2 ^ (- e)).

(** The integer part of the binary logarithm of a positive rational. *)
Definition ilog2 (q : Qc) : Z :=
  let l := (Z.log2 (Qnum q) - Z.log2 (Zpos (Qden q)))%Z in
  if Qle_bool (pow2 l) q then l else (l - 1)%Z.

(** The nearest integer, the even one in a tie. *)
Definition round_half_even (q : Qc) : Z :=
  let f := Qfloor q in
  match (q ?= zq f + Q2Qc (1 # 2))%Qc with
  | Lt => f
  | Gt => (f + 1)%Z
  | Eq => if Z.even f then f else (f + 1)%Z
  end.

(** The double nearest to [q]: a multiple of [2 ^ e] with a significand of
    53 bits, where [e] is not below -1074 (the subnormal numbers), or an
    infinity when the rounded magnitude reaches [2 ^ 1024]. *)
Definition round64 (q : Qc) : number :=
  match (q ?= 0)%Qc with
  | Eq => Fin 0
  | Lt =>
      let e := Z.max (ilog2 (- q) - 52) (-1074) in
      let r := zq (round_half_even (- q / pow2 e)) * pow2 e in
      if Qle_bool (pow2 1024) r then NInf else Fin (- r)
  | Gt =>
      let e := Z.max (ilog2 q - 52) (-1074) in
      let r := zq (round_half_even (q / pow2 e)) * pow2 e in
      if Qle_bool (pow2 1024) r then PInf else Fin r
  end.

Definition binary64 : Rounding := round64.

(** The rounding is exact on the integers up to [N] in magnitude. *)
Definition exact_integers (R : Rounding) (N : Z) : Prop :=
  forall z : Z, (- N <= z <= N)%Z -> round (zq z) = Fin (zq z).

(* ===================================================================== *)
(** ** Vector math *)
(* ===================================================================== *)

(** A vector is a two-element array of numbers; [v[0]] and [v[1]] are the
    two projections. *)
Definition Vec : Type := number * number.

(** A point object [{x: .., y: ..}]. *)
Record Point : Type := { x : number; y : number }.

(** A triangle is an array of three vectors. *)
Definition Triangle : Type := Vec * Vec * Vec.

Definition corner0 (t : Triangle) : Vec := t.1.1.
Definition corner1 (t : Triangle) : Vec := t.1.2.
Definition corner2 (t : Triangle) : Vec := t.2.

Definition p2v (p : Point) : Vec := (x p, y p).
Definition v2p (v : Vec) : Point := {| x := v.1; y := v.2 |}.

Section VectorMath.

Context {R : Rounding}.

Definition add (v0 v1 : Vec) : Vec := (v0.1 + v1.1, v0.2 + v1.2)%num.
Definition sub (v0 v1 : Vec) : Vec := (v0.1 - v1.1, v0.2 - v1.2)%num.
Definition dot (v0 v1 : Vec) : number := (v0.1 * v1.1 + v0.2 * v1.2)%num.
Definition mul (k : number) (v : Vec) : Vec := (k * v.1, k * v.2)%num.

Definition cartesian_to_barycentric (triangle : Triangle) (xy : Vec) : Vec :=
  let a := corner0 triangle in
  let b := corner1 triangle in
  let c := corner2 triangle in
  let v0 := sub c a in
  let v1 := sub b a in
  let v2 := sub xy a in
  (* Compute dot products *)
  let dot00 := dot v0 v0 in
  let dot01 := dot v0 v1 in
  let dot02 := dot v0 v2 in
  let dot11 := dot v1 v1 in
  let dot12 := dot v1 v2 in
  (* Compute barycentric coordinates *)
  let invDenom := (1 / (dot00 * dot11 - dot01 * dot01))%num in
  let u := ((dot11 * dot02 - dot01 * dot12) * invDenom)%num in
  let v := ((dot00 * dot12 - dot01 * dot02) * invDenom)%num in
  (u, v).

Definition barycentric_to_cartesian (triangle : Triangle) (uv : Vec) : Vec :=
  let a := corner0 triangle in
  let ba := sub (corner1 triangle) a in
  let ca := sub (corner2 triangle) a in
  add a (add (mul uv.1 ca) (mul uv.2 ba)).

(** The test of [map_triangle] on barycentric coordinates. *)
Definition in_triangle (uv : Vec) : bool :=
  (uv.1 >=? 0)%num && (uv.2 >=? 0)%num && (uv.1 + uv.2 <=? 1)%num.

End VectorMath.

(* ===================================================================== *)
(** ** Pixel arrays *)
(* ===================================================================== *)

(** What an indexed read of a typed array gives. *)
Inductive value : Type :=
  | Undefined
  | Num (n : number).

Definition ToNumber (v : value) : number :=
  match v with
  | Undefined => NaN
  | Num n => n
  end.

Definition Z_of_byte (b : byte) : Z := Z.of_N (Byte.to_N b).
Definition byte_of_Z (z : Z) : byte := default x00 (Byte.of_N (Z.to_N z)).

(** The conversion applied to every value stored in a [Uint8ClampedArray]:
    NaN becomes 0, the value is clamped to the range 0..255 and rounded to
    the nearest integer, ties to even. *)
Definition ToUint8Clamp (n : number) : byte :=
  match n with
  | NaN | NInf => x00
  | PInf => xff
  | Fin q =>
      if Qle_bool q 0 then x00
      else if Qle_bool 255 q then xff
      else byte_of_Z (round_half_even q)
  end.

(** A number is an index of an array of length [len] when it is an integer
    in [0, len). *)
Definition index_of (i : number) (len : nat) : option nat :=
  match i with
  | Fin q =>
      let z := Qfloor q in
      if Qc_eq_bool (zq z) q && (0 <=? z)%Z && (z <? Z.of_nat len)%Z
      then Some (Z.to_nat z)
      else None
  | _ => None
  end.

(** [a[i]] *)
Definition typed_get (a : list byte) (i : number) : value :=
  match index_of i (length a) with
  | Some n =>
      match a !! n with
      | Some b => Num (of_Z (Z_of_byte b))
      | None => Undefined
      end
  | None => Undefined
  end.

(** [a[i] = v] *)
Definition typed_set (a : list byte) (i : number) (v : value) : list byte :=
  match index_of i (length a) with
  | Some n => <[n := ToUint8Clamp (ToNumber v)]> a
  | None => a
  end.

(* ===================================================================== *)
(** ** The store *)
(* ===================================================================== *)

(** References to pixel arrays. *)
Abbreviation loc := positive.

(** An [ImageData] object: [width], [height] and [data] are read-only
    attributes; [data] refers to the pixel array, whose elements are
    mutable. *)
Record ImageData : Type := {
  width : nat;
  height : nat;
  data : loc
}.

(** The pixel arrays, and the two variables that [map_triangle] assigns
    without declaring them, which makes them properties of the global
    object. *)
Record State : Type := {
  heap : gmap loc (list byte);
  src_xy : option Vec;
  src_pixel_start : option number
}.

Definition load (s : State) (l : loc) (i : number) : value :=
  match heap s !! l with
  | Some a => typed_get a i
  | None => Undefined
  end.

Definition store (l : loc) (i : number) (v : value) (s : State) : State :=
  {| heap := alter (fun a => typed_set a i v) l (heap s);
     src_xy := src_xy s;
     src_pixel_start := src_pixel_start s |}.

Definition set_src_xy (v : Vec) (s : State) : State :=
  {| heap := heap s; src_xy := Some v; src_pixel_start := src_pixel_start s |}.

Definition set_src_pixel_start (n : number) (s : State) : State :=
  {| heap := heap s; src_xy := src_xy s; src_pixel_start := Some n |}.

(* ===================================================================== *)
(** ** The resampling loop *)
(* ===================================================================== *)

Definition PIXEL_WIDTH : number := of_Z 4.

Section Resampling.

Context {R : Rounding}.

(** The body of the two loops of [map_triangle], at the pixel [(x, y)]. *)
Definition map_pixel (src_image_data : ImageData) (src_triangle : Triangle)
    (dst_image_data : ImageData) (dst_triangle : Triangle)
    (x y : nat) (s : State) : State :=
  let src_pixel_data := data src_image_data in
  let dst_pixel_data := data dst_image_data in
  let uv := cartesian_to_barycentric dst_triangle (of_nat x, of_nat y) in
  let xy_in_triangle :=
    (uv.1 >=? 0)%num && (uv.2 >=? 0)%num && (uv.1 + uv.2 <=? 1)%num in
  let dst_pixel_start :=
    (PIXEL_WIDTH * (of_nat x + of_nat y * of_nat (width dst_image_data)))%num in
  if xy_in_triangle then
    let xy' := barycentric_to_cartesian src_triangle uv in
    let s := set_src_xy xy' s in
    let start' :=
      (PIXEL_WIDTH *
         (floor xy'.1 + floor xy'.2 * of_nat (width src_image_data)))%num in
    let s := set_src_pixel_start start' s in
    let s := store dst_pixel_data dst_pixel_start
               (load s src_pixel_data start') s in
    let s := store dst_pixel_data (dst_pixel_start + of_Z 1)%num
               (load s src_pixel_data (start' + of_Z 1)%num) s in
    let s := store dst_pixel_data (dst_pixel_start + of_Z 2)%num
               (load s src_pixel_data (start' + of_Z 2)%num) s in
    let s := store dst_pixel_data (dst_pixel_start + of_Z 3)%num
               (load s src_pixel_data (start' + of_Z 3)%num) s in
    s
  else
    let s := store dst_pixel_data dst_pixel_start (Num (of_Z 255)) s in
    let s := store dst_pixel_data (dst_pixel_start + of_Z 1)%num
               (Num (of_Z 255)) s in
    let s := store dst_pixel_data (dst_pixel_start + of_Z 2)%num
               (Num (of_Z 255)) s in
    let s := store dst_pixel_data (dst_pixel_start + of_Z 3)%num
               (Num (of_Z 255)) s in
    s.

(** [x] runs over the columns in the outer loop, [y] over the rows in the
    inner one. *)
Definition map_triangle (src_image_data : ImageData) (src_triangle : Triangle)
    (dst_image_data : ImageData) (dst_triangle : Triangle)
    (s : State) : State :=
  foldl
    (fun s x =>
       foldl
         (fun s y =>
            map_pixel src_image_data src_triangle
                      dst_image_data dst_triangle x y s)
         s (seq 0 (height dst_image_data)))
    s (seq 0 (width dst_image_data)).

End Resampling.

(* ===================================================================== *)
(** ** Vocabulary of the statements *)
(* ===================================================================== *)

(** Points and triangles with finite coordinates. *)
Definition qvec (p : Qc * Qc) : Vec := (Fin p.1, Fin p.2).
Definition qtri (a b c : Qc * Qc) : Triangle := (qvec a, qvec b, qvec c).

(** A pixel position as the vector [[x, y]] that the loop builds. *)
Definition nvec (x y : nat) : Vec := (of_nat x, of_nat y).

Definition is_zero (a : number) : bool :=
  match a with Fin q => Qc_eq_bool q 0 | _ => false end.

(** [a === b] on numbers: NaN equals nothing. *)
Definition strict_equal (a b : number) : bool :=
  match a, b with
  | Fin p, Fin q => Qc_eq_bool p q
  | PInf, PInf | NInf, NInf => true
  | _, _ => false
  end.

(** The double written as the decimal [q]: the double nearest to it. *)
Definition double (q : Qc) : Qc :=
  match round64 q with Fin r => r | _ => 0 end.

Definition qsub (v w : Qc * Qc) : Qc * Qc := (v.1 - w.1, v.2 - w.2).
Definition qdot (v w : Qc * Qc) : Qc := v.1 * w.1 + v.2 * w.2.
Definition qadd (v w : Qc * Qc) : Qc * Qc := (v.1 + w.1, v.2 + w.2).
Definition qscale (k : Qc) (v : Qc * Qc) : Qc * Qc := (k * v.1, k * v.2).

(** Twice the signed area of the triangle: zero when the corners are
    collinear. *)
Definition area2 (a b c : Qc * Qc) : Qc :=
  (c.1 - a.1) * (b.2 - a.2) - (c.2 - a.2) * (b.1 - a.1).

Definition degenerate (a b c : Qc * Qc) : bool := Qc_eq_bool (area2 a b c) 0.

(** The denominator and the two numerators of [cartesian_to_barycentric]
    in exact arithmetic. *)
Definition denominator (a b c : Qc * Qc) : Qc :=
  qdot (qsub c a) (qsub c a) * qdot (qsub b a) (qsub b a)
  - qdot (qsub c a) (qsub b a) * qdot (qsub c a) (qsub b a).

Definition numerator_u (a b c p : Qc * Qc) : Qc :=
  qdot (qsub b a) (qsub b a) * qdot (qsub c a) (qsub p a)
  - qdot (qsub c a) (qsub b a) * qdot (qsub b a) (qsub p a).

Definition numerator_v (a b c p : Qc * Qc) : Qc :=
  qdot (qsub c a) (qsub c a) * qdot (qsub b a) (qsub p a)
  - qdot (qsub c a) (qsub b a) * qdot (qsub c a) (qsub p a).

(** The point [A + u (C - A) + v (B - A)]. *)
Definition combine (a b c uv : Qc * Qc) : Qc * Qc :=
  (a.1 + uv.1 * (c.1 - a.1) + uv.2 * (b.1 - a.1),
   a.2 + uv.1 * (c.2 - a.2) + uv.2 * (b.2 - a.2)).

(** The exact barycentric coordinates of [p]: the two quotients that
    [cartesian_to_barycentric] computes in exact arithmetic when the
    denominator is not zero. *)
Definition barycentric (a b c p : Qc * Qc) : Qc * Qc :=
  (numerator_u a b c p / denominator a b c,
   numerator_v a b c p / denominator a b c).

(** The pixel position [(x, y)] as a pair of rationals. *)
Definition qpix (x y : nat) : Qc * Qc := (zq (Z.of_nat x), zq (Z.of_nat y)).

(** The pixels in the order in which the two loops visit them. *)
Definition pixels (w h : nat) : list (nat * nat) :=
  x ← seq 0 w; pair x <$> seq 0 h.

(** Where the pixel [(x, y)] starts in an array of rows of [w] pixels. *)
Definition offset (w x y : nat) : nat := 4 * (x + y * w).

(** The four bytes of an array from position [o] on. *)
Definition pixel_bytes (a : list byte) (o : nat) : list byte :=
  take 4 (drop o a).

(** The byte that [dst[j] = src[i]] stores. *)
Definition sample (a : list byte) (i : number) : byte :=
  ToUint8Clamp (ToNumber (typed_get a i)).

Definition white : list byte := [xff; xff; xff; xff].

(** A point whose coordinates are within the pixel positions of an image
    of [w] by [h] pixels. *)
Definition inside_image (w h : nat) (q : Qc * Qc) : bool :=
  Qle_bool 0 q.1 && Qle_bool q.1 (zq (Z.of_nat w - 1))
  && Qle_bool 0 q.2 && Qle_bool q.2 (zq (Z.of_nat h - 1)).

(** The sampling position that a clamping rule would give (x clamped to
    [0, w - 1], y to [0, h - 1]).  The source has no such rule; the
    definition only serves to compare with it. *)
Definition clamped_start (w h : nat) (sx sy : Z) : Z :=
  4 * (Z.max 0 (Z.min sx (Z.of_nat w - 1))
       + Z.max 0 (Z.min sy (Z.of_nat h - 1)) * Z.of_nat w).

(** A store with the given pixel arrays and no global assigned yet. *)
Definition initial (h : gmap loc (list byte)) : State :=
  {| heap := h; src_xy := None; src_pixel_start := None |}.

Section Vocabulary.

Context {R : Rounding}.

(** The denominator that [cartesian_to_barycentric] computes. *)
Definition computed_denominator (triangle : Triangle) : number :=
  let v0 := sub (corner2 triangle) (corner0 triangle) in
  let v1 := sub (corner1 triangle) (corner0 triangle) in
  (dot v0 v0 * dot v1 v1 - dot v0 v1 * dot v0 v1)%num.



(** The value of [src_pixel_start] at the pixel [(x, y)]. *)
Definition source_start (src_w : nat) (src_triangle dst_triangle : Triangle)
    (x y : nat) : number :=
  let xy' :=
    barycentric_to_cartesian src_triangle
      (cartesian_to_barycentric dst_triangle (nvec x y)) in
  (PIXEL_WIDTH * (floor xy'.1 + floor xy'.2 * of_nat src_w))%num.

(** The four bytes that the loop body stores at the pixel [(x, y)] when the
    source array is [sa] and is not the destination array. *)
Definition pixel_value (sa : list byte) (src_w : nat)
    (src_triangle dst_triangle : Triangle) (x y : nat) : list byte :=
  if in_triangle (cartesian_to_barycentric dst_triangle (nvec x y)) then
    let start' := source_start src_w src_triangle dst_triangle x y in
    [sample sa start'; sample sa (start' + of_Z 1)%num;
     sample sa (start' + of_Z 2)%num; sample sa (start' + of_Z 3)%num]
  else [xff; xff; xff; xff].

(** The whole destination array as a function of the source array: the
    rows one after the other, each row the bytes of its pixels. *)
Definition render (sa : list byte) (src_w : nat)
    (src_triangle dst_triangle : Triangle) (w h : nat) : list byte :=
  y ← seq 0 h; x ← seq 0 w; pixel_value sa src_w src_triangle dst_triangle x y.

(** The pixels inside the destination triangle, in loop order. *)
Definition inside_pixels (dst_triangle : Triangle) (w h : nat)
    : list (nat * nat) :=
  filter
    (fun p =>
       in_triangle (cartesian_to_barycentric dst_triangle (nvec p.1 p.2))
       = true)
    (pixels w h).

(** The loop body run over a list of pixels, in order. *)
Definition run (src_image_data : ImageData) (src_triangle : Triangle)
    (dst_image_data : ImageData) (dst_triangle : Triangle)
    (ps : list (nat * nat)) (s : State) : State :=
  foldl
    (fun s p =>
       map_pixel src_image_data src_triangle dst_image_data dst_triangle
                 p.1 p.2 s)
    s ps.

(** The four stores of the [else] branch of the loop body. *)
Definition fill_pixel (dst_image_data : ImageData) (x y : nat) (s : State)
    : State :=
  let dst_pixel_data := data dst_image_data in
  let dst_pixel_start :=
    (PIXEL_WIDTH * (of_nat x + of_nat y * of_nat (width dst_image_data)))%num in
  store dst_pixel_data (dst_pixel_start + of_Z 3)%num (Num (of_Z 255))
    (store dst_pixel_data (dst_pixel_start + of_Z 2)%num (Num (of_Z 255))
       (store dst_pixel_data (dst_pixel_start + of_Z 1)%num (Num (of_Z 255))
          (store dst_pixel_data dst_pixel_start (Num (of_Z 255)) s))).

End Vocabulary.

(** *** Expressions without division *)

(** The eight numbers that [barycentric_to_cartesian] receives. *)
Inductive input : Type := Ax | Ay | Bx | By | Cx | Cy | U | V.

(** Expressions built from the inputs with [+], [-] and [*] only. *)
Inductive expr : Type :=
  | Var (i : input)
  | Add (e1 e2 : expr)
  | Sub (e1 e2 : expr)
  | Mul (e1 e2 : expr).

Definition inputs (triangle : Triangle) (uv : Vec) (i : input) : number :=
  match i with
  | Ax => (corner0 triangle).1
  | Ay => (corner0 triangle).2
  | Bx => (corner1 triangle).1
  | By => (corner1 triangle).2
  | Cx => (corner2 triangle).1
  | Cy => (corner2 triangle).2
  | U => uv.1
  | V => uv.2
  end.

Fixpoint eval {R : Rounding} (env : input -> number) (e : expr) : number :=
  match e with
  | Var i => env i
  | Add e1 e2 => (eval env e1 + eval env e2)%num
  | Sub e1 e2 => (eval env e1 - eval env e2)%num
  | Mul e1 e2 => (eval env e1 * eval env e2)%num
  end.

(** [A + (u * (C - A) + v * (B - A))], coordinate by coordinate. *)
Definition point_x : expr :=
  Add (Var Ax)
    (Add (Mul (Var U) (Sub (Var Cx) (Var Ax)))
         (Mul (Var V) (Sub (Var Bx) (Var Ax)))).

Definition point_y : expr :=
  Add (Var Ay)
    (Add (Mul (Var U) (Sub (Var Cy) (Var Ay)))
         (Mul (Var V) (Sub (Var By) (Var Ay)))).

(* ===================================================================== *)
(** ** Sample data *)
(* ===================================================================== *)

(** A point with integer coordinates. *)
Definition qp (x y : Z) : Qc * Qc := (zq x, zq y).

(** The bytes 1, 2, 3, ... as a gradient. *)
Definition ramp (n : nat) : list byte :=
  (fun i => byte_of_Z (Z.of_nat (S i))) <$> seq 0 n.

(** A source image at reference 1 and a destination image at reference 2. *)
Definition source_image (w h : nat) : ImageData :=
  {| width := w; height := h; data := 1%positive |}.

Definition destination_image (w h : nat) : ImageData :=
  {| width := w; height := h; data := 2%positive |}.

Definition two_arrays (sa da : list byte) : State :=
  initial (<[1%positive := sa]> (<[2%positive := da]> ∅)).

(* ===================================================================== *)
(** ** Rationals and integers *)
(* ===================================================================== *)

Section Numbers.

Lemma Qc_eq_bool_false (a b : Qc) : Qc_eq_bool a b = false <-> a <> b.
Proof.
  unfold Qc_eq_bool.
  destruct (Qcanon.Qc_eq_dec a b); split; intros; congruence || contradiction.
Qed.

Lemma Qc_eq_bool_true (a b : Qc) : Qc_eq_bool a b = true <-> a = b.
Proof.
  unfold Qc_eq_bool.
  destruct (Qcanon.Qc_eq_dec a b); split; intros; congruence || contradiction.
Qed.

Lemma Qccompare_Lt (p q : Qc) : p < q -> (p ?= q) = Lt.
Proof. apply Qclt_alt. Qed.

Lemma Qccompare_Gt (p q : Qc) : q < p -> (p ?= q) = Gt.
Proof. apply Qcgt_alt. Qed.

Lemma this_add (p q : Qc) : (this (p + q)%Qc == this p + this q)%Q.
Proof. unfold Qcplus, Q2Qc. cbn [this]. apply Qred_correct. Qed.

Lemma this_mul (p q : Qc) : (this (p * q)%Qc == this p * this q)%Q.
Proof. unfold Qcmult, Q2Qc. cbn [this]. apply Qred_correct. Qed.

Lemma this_opp (p : Qc) : (this (- p)%Qc == - this p)%Q.
Proof. unfold Qcopp, Q2Qc. cbn [this]. apply Qred_correct. Qed.

Lemma this_sub (p q : Qc) : (this (p - q)%Qc == this p - this q)%Q.
Proof. unfold Qcminus. by rewrite this_add, this_opp. Qed.

Lemma Qcopp_pos (q : Qc) : q < 0 -> 0 < - q.
Proof.
  unfold Qclt. rewrite this_opp. change (this (Q2Qc 0)) with 0%Q. lra.
Qed.

Lemma Qcopp_neg (q : Qc) : 0 < q -> - q < 0.
Proof.
  unfold Qclt. rewrite this_opp. change (this (Q2Qc 0)) with 0%Q. lra.
Qed.

Lemma zq_add (a b : Z) : zq a + zq b = zq (a + b).
Proof.
  apply Qc_is_canon. unfold zq, Qcplus, Q2Qc. cbn [this].
  rewrite !Qred_correct, inject_Z_plus. reflexivity.
Qed.

Lemma zq_mul (a b : Z) : zq a * zq b = zq (a * b).
Proof.
  apply Qc_is_canon. unfold zq, Qcmult, Q2Qc. cbn [this].
  rewrite !Qred_correct, inject_Z_mult. reflexivity.
Qed.

Lemma zq_opp (a : Z) : - zq a = zq (- a).
Proof.
  apply Qc_is_canon. unfold zq, Qcopp, Q2Qc. cbn [this].
  rewrite !Qred_correct, inject_Z_opp. reflexivity.
Qed.

Lemma Qfloor_zq (z : Z) : Qfloor (zq z) = z.
Proof.
  unfold zq, Q2Qc. cbn [this]. rewrite Qred_correct. apply Qfloor_Z.
Qed.

Lemma zq_this (z : Z) : this (zq z) = inject_Z z.
Proof. unfold zq, Q2Qc. cbn [this]. apply inject_Z_Qred. Qed.

Lemma zq_le (a b : Z) : zq a <= zq b <-> (a <= b)%Z.
Proof. unfold Qcle. rewrite !zq_this. by rewrite Zle_Qle. Qed.

Lemma zq_lt (a b : Z) : zq a < zq b <-> (a < b)%Z.
Proof. unfold Qclt. rewrite !zq_this. by rewrite Zlt_Qlt. Qed.

Lemma zq_inj (a b : Z) : zq a = zq b -> a = b.
Proof.
  intros H. rewrite <- (Qfloor_zq a), <- (Qfloor_zq b). by rewrite H.
Qed.

Lemma floor_of_Z (z : Z) : floor (of_Z z) = of_Z z.
Proof. unfold of_Z. cbn [floor]. unfold of_Z. by rewrite Qfloor_zq. Qed.

Lemma floor_Fin (q : Qc) : floor (Fin q) = of_Z (Qfloor q).
Proof. reflexivity. Qed.

End Numbers.

(* ===================================================================== *)
(** ** The rounding of the doubles on integers *)
(* ===================================================================== *)

Section Binary64.

Lemma round_half_even_zq (k : Z) : round_half_even (zq k) = k.
Proof.
  unfold round_half_even. rewrite Qfloor_zq.
  assert (zq k < zq k + Q2Qc (1 # 2)) as H.
  { rewrite <- (Qcplus_0_r (zq k)) at 1. apply Qcplus_lt_mono_l. done. }
  by rewrite (Qccompare_Lt _ _ H).
Qed.

Lemma ilog2_zq (z : Z) : (0 < z)%Z -> ilog2 (zq z) = Z.log2 z.
Proof.
  intros Hz. unfold ilog2.
  assert (Qnum (zq z) = z) as -> by by rewrite zq_this.
  assert (Qden (zq z) = 1%positive) as -> by by rewrite zq_this.
  change (Z.log2 1) with 0%Z. rewrite Z.sub_0_r.
  unfold pow2. pose proof (Z.log2_nonneg z) as Hl.
  assert ((0 <=? Z.log2 z)%Z = true) as -> by by apply Z.leb_le.
  assert (Qle_bool (zq (2 ^ Z.log2 z)) (zq z) = true) as ->; [|done].
  apply Qle_bool_iff. apply zq_le. apply Z.log2_spec. done.
Qed.

(** A positive integer below [2 ^ 53] is a multiple of its unit in the last
    place. *)
Lemma round64_pos_int (z : Z) :
  (0 < z < 2 ^ 53)%Z -> round64 (zq z) = Fin (zq z).
Proof.
  intros [Hz Hlt]. unfold round64.
  assert (zq z > 0) as Hgt by (apply (zq_lt 0 z); done).
  rewrite (Qccompare_Gt _ _ Hgt).
  rewrite ilog2_zq by done.
  assert (Z.log2 z < 53)%Z as Hlog by (apply Z.log2_lt_pow2; lia).
  pose proof (Z.log2_nonneg z) as Hl.
  rewrite Z.max_l by lia.
  remember (52 - Z.log2 z)%Z as k eqn:Hk.
  assert (pow2 (Z.log2 z - 52) = / zq (2 ^ k)) as ->.
  { unfold pow2. destruct (0 <=? Z.log2 z - 52)%Z eqn:E.
    - apply Z.leb_le in E.
      replace (Z.log2 z - 52)%Z with 0%Z by lia.
      replace k with 0%Z by lia.
      apply Qc_is_canon. vm_compute. reflexivity.
    - do 3 f_equal. lia. }
  assert (zq (2 ^ k) <> 0) as Hne.
  { intros E. apply (zq_inj _ 0) in E.
    pose proof (Z.pow_pos_nonneg 2 k). lia. }
  assert (zq z / / zq (2 ^ k) = zq (z * 2 ^ k)) as ->.
  { rewrite <- zq_mul. field. done. }
  rewrite round_half_even_zq.
  assert (zq (z * 2 ^ k) * / zq (2 ^ k) = zq z) as ->.
  { rewrite <- zq_mul. field. done. }
  assert (Qle_bool (pow2 1024) (zq z) = false) as ->; [|done].
  destruct (Qle_bool (pow2 1024) (zq z)) eqn:E; [|done].
  apply Qle_bool_iff in E. change (pow2 1024) with (zq (2 ^ 1024)) in E.
  pose proof (proj1 (zq_le (2 ^ 1024) z) E) as E'.
  apply Z.le_ngt in E'. destruct E'.
  etransitivity; [exact Hlt|]. by apply Z.pow_lt_mono_r.
Qed.

Lemma round64_opp (q : Qc) : round64 (- q) = nneg (round64 q).
Proof.
  unfold round64. rewrite Qcopp_involutive.
  destruct (q ?= 0) eqn:E.
  - apply Qceq_alt in E. subst q. reflexivity.
  - apply Qclt_alt in E.
    assert (0 < - q) as H by by apply Qcopp_pos.
    rewrite (Qccompare_Gt _ _ H).
    destruct (Qle_bool _ _); [done|]. cbn [nneg].
    by rewrite Qcopp_involutive.
  - apply Qcgt_alt in E.
    assert (- q < 0) as H by by apply Qcopp_neg.
    rewrite (Qccompare_Lt _ _ H).
    by destruct (Qle_bool _ _).
Qed.

(** The doubles hold every integer up to [2 ^ 53] in magnitude. *)
Lemma exact_integers_binary64 : exact_integers binary64 (2 ^ 53).
Proof.
  assert (round64 (zq (2 ^ 53)) = Fin (zq (2 ^ 53))) as Htop.
  { vm_compute. reflexivity. }
  assert (forall y, (0 <= y <= 2 ^ 53)%Z -> round64 (zq y) = Fin (zq y))
    as Hpos.
  { intros y Hy. destruct (decide (y = 0%Z)) as [->|]; [done|].
    destruct (decide (y = 2 ^ 53)%Z) as [->|]; [done|].
    apply round64_pos_int. lia. }
  intros z Hz. change (round (zq z)) with (round64 (zq z)).
  destruct (decide (0 <= z)%Z); [apply Hpos; lia|].
  replace z with (- - z)%Z by lia. rewrite <- (zq_opp (- z)), round64_opp.
  rewrite Hpos by lia. done.
Qed.

Lemma exact_integers_exact (N : Z) : exact_integers exact_arithmetic N.
Proof. intros z _. reflexivity. Qed.

End Binary64.

(* ===================================================================== *)
(** ** Integer arithmetic under a rounding that is exact on integers *)
(* ===================================================================== *)

Section IntegerArithmetic.

Context {R : Rounding} (N : Z) (HN : exact_integers R N).

Lemma of_Z_add (a b : Z) :
  (- N <= a + b <= N)%Z -> (of_Z a + of_Z b)%num = of_Z (a + b).
Proof. intros H. unfold of_Z. cbn [nadd]. rewrite zq_add. by apply HN. Qed.

Lemma of_Z_mul (a b : Z) :
  (- N <= a * b <= N)%Z -> (of_Z a * of_Z b)%num = of_Z (a * b).
Proof. intros H. unfold of_Z. cbn [nmul]. rewrite zq_mul. by apply HN. Qed.

Lemma of_nat_offset_0 (w x y : nat) :
  (Z.of_nat (offset w x y) <= N)%Z ->
  (PIXEL_WIDTH * (of_nat x + of_nat y * of_nat w))%num
  = of_nat (offset w x y).
Proof.
  unfold PIXEL_WIDTH, of_nat, offset. intros H.
  rewrite of_Z_mul, of_Z_add, of_Z_mul by nia. f_equal. lia.
Qed.

Lemma of_nat_offset (w x y c : nat) :
  (Z.of_nat (offset w x y + c) <= N)%Z ->
  (PIXEL_WIDTH * (of_nat x + of_nat y * of_nat w) + of_Z (Z.of_nat c))%num
  = of_nat (offset w x y + c).
Proof.
  intros H. rewrite of_nat_offset_0 by lia. unfold of_nat.
  rewrite of_Z_add by lia. f_equal. lia.
Qed.

End IntegerArithmetic.

(* ===================================================================== *)
(** ** The rounding error of the doubles *)
(* ===================================================================== *)

Section Binary64Error.

Local Open Scope Q_scope.


















End Binary64Error.

(* ===================================================================== *)
(** ** Typed arrays at integer indices *)
(* ===================================================================== *)

Section TypedArrays.

Local Close Scope Qc_scope.

Implicit Types (a : list byte) (n : nat) (z : Z) (v : value).

Lemma ToUint8Clamp_byte (b : byte) : ToUint8Clamp (of_Z (Z_of_byte b)) = b.
Proof. destruct b; vm_compute; reflexivity. Qed.

Lemma ToUint8Clamp_255 : ToUint8Clamp (of_Z 255) = xff.
Proof. vm_compute; reflexivity. Qed.

Lemma index_of_of_Z z len :
  index_of (of_Z z) len
  = if (0 <=? z)%Z && (z <? Z.of_nat len)%Z then Some (Z.to_nat z) else None.
Proof.
  unfold index_of, of_Z. rewrite Qfloor_zq.
  assert (Qc_eq_bool (zq z) (zq z) = true) as -> by by apply Qc_eq_bool_true.
  reflexivity.
Qed.

Lemma index_of_of_nat n len :
  index_of (of_nat n) len = if decide (n < len) then Some n else None.
Proof.
  unfold of_nat. rewrite index_of_of_Z, Nat2Z.id.
  assert ((0 <=? Z.of_nat n)%Z = true) as -> by (apply Z.leb_le; lia).
  cbn [andb]. case_decide.
  - assert ((Z.of_nat n <? Z.of_nat len)%Z = true) as ->; [|done].
    apply Z.ltb_lt; lia.
  - assert ((Z.of_nat n <? Z.of_nat len)%Z = false) as ->; [|done].
    apply Z.ltb_ge; lia.
Qed.

Lemma length_typed_set a i v : length (typed_set a i v) = length a.
Proof.
  unfold typed_set. destruct (index_of _ _); [apply length_insert | done].
Qed.

(** A write at a natural index is a list update, which does nothing out of
    range. *)
Lemma typed_set_of_nat a n v :
  typed_set a (of_nat n) v = <[n := ToUint8Clamp (ToNumber v)]> a.
Proof.
  unfold typed_set. rewrite index_of_of_nat. case_decide; [done|].
  symmetry. apply list_insert_ge. lia.
Qed.

Lemma typed_get_of_nat a n :
  typed_get a (of_nat n)
  = from_option (fun b => Num (of_Z (Z_of_byte b))) Undefined (a !! n).
Proof.
  unfold typed_get. rewrite index_of_of_nat. case_decide; [done|].
  rewrite lookup_ge_None_2; [done | lia].
Qed.

(** What a copy reads at an integer index: the byte there, or 0 when the
    index is outside the array. *)
Lemma sample_of_Z a z :
  sample a (of_Z z)
  = if (0 <=? z)%Z then default x00 (a !! Z.to_nat z) else x00.
Proof.
  unfold sample, typed_get. rewrite index_of_of_Z.
  destruct (0 <=? z)%Z eqn:H0; cbn [andb]; [|done].
  destruct (z <? Z.of_nat (length a))%Z eqn:H1.
  - destruct (a !! Z.to_nat z) as [b|] eqn:Hb; cbn [ToNumber default].
    + apply ToUint8Clamp_byte.
    + done.
  - rewrite lookup_ge_None_2; [done|].
    apply Z.ltb_ge in H1. apply Z.leb_le in H0. lia.
Qed.

Lemma sample_in_range a z b :
  (0 <= z)%Z -> a !! Z.to_nat z = Some b -> sample a (of_Z z) = b.
Proof.
  intros H0 Hb. rewrite sample_of_Z, Hb.
  by assert ((0 <=? z)%Z = true) as -> by by apply Z.leb_le.
Qed.

Lemma sample_out_of_range a z :
  (z < 0 \/ Z.of_nat (length a) <= z)%Z -> sample a (of_Z z) = x00.
Proof.
  intros H. rewrite sample_of_Z. destruct (0 <=? z)%Z eqn:H0; [|done].
  apply Z.leb_le in H0. rewrite lookup_ge_None_2; [done | lia].
Qed.

(** A copy from a position that is not a finite number stores 0. *)
Lemma sample_not_finite a i : is_finite i = false -> sample a i = x00.
Proof. by destruct i. Qed.

Lemma pixel_bytes_lookup a o c :
  c < 4 -> pixel_bytes a o !! c = a !! (o + c).
Proof.
  intros H. unfold pixel_bytes. by rewrite lookup_take_lt, lookup_drop.
Qed.

Lemma pixel_bytes_ext a a' o :
  (forall c, c < 4 -> a !! (o + c) = a' !! (o + c)) ->
  pixel_bytes a o = pixel_bytes a' o.
Proof.
  intros H. apply list_eq. intros c. destruct (decide (c < 4)).
  - rewrite !pixel_bytes_lookup by done. auto.
  - unfold pixel_bytes. rewrite !lookup_take_ge by lia. done.
Qed.

Lemma pixel_bytes_eq a o b0 b1 b2 b3 :
  a !! o = Some b0 -> a !! (o + 1) = Some b1 ->
  a !! (o + 2) = Some b2 -> a !! (o + 3) = Some b3 ->
  pixel_bytes a o = [b0; b1; b2; b3].
Proof.
  intros H0 H1 H2 H3. apply list_eq. intros c.
  destruct (decide (c < 4)).
  - rewrite pixel_bytes_lookup by done.
    destruct c as [|[|[|[|c]]]]; try lia; cbn [lookup list_lookup].
    + by rewrite Nat.add_0_r.
    + done.
    + done.
    + done.
  - unfold pixel_bytes. rewrite lookup_take_ge by lia.
    symmetry. apply lookup_ge_None_2. cbn [length]. lia.
Qed.

End TypedArrays.

(* ===================================================================== *)
(** ** One pixel of the loop *)
(* ===================================================================== *)

Section Pixel.

Local Close Scope Qc_scope.

Context {R : Rounding} (N : Z) (HN : exact_integers R N).

Variables (src : ImageData) (st : Triangle) (dst : ImageData) (dt : Triangle).

Implicit Types (s : State) (l : loc) (i : number) (v : value).

Lemma lookup_store_eq l i v s :
  heap (store l i v s) !! l = (fun a => typed_set a i v) <$> heap s !! l.
Proof. apply lookup_alter_eq. Qed.

Lemma lookup_store_ne l l' i v s :
  l <> l' -> heap (store l i v s) !! l' = heap s !! l'.
Proof. intros H. by apply lookup_alter_ne. Qed.

Lemma load_store_ne l l' i j v s :
  l <> l' -> load (store l i v s) l' j = load s l' j.
Proof. intros H. unfold load. by rewrite lookup_store_ne. Qed.

Lemma load_present l j s a : heap s !! l = Some a -> load s l j = typed_get a j.
Proof. intros H. unfold load. by rewrite H. Qed.

(** Four list updates from position [o] on. *)
Lemma lookup_four_eq (a : list byte) o (b0 b1 b2 b3 : byte) :
  o + 4 <= length a ->
  pixel_bytes (<[o + 3 := b3]> (<[o + 2 := b2]> (<[o + 1 := b1]> (<[o := b0]> a)))) o
  = [b0; b1; b2; b3].
Proof.
  intros H. apply pixel_bytes_eq.
  - rewrite !list_lookup_insert_ne by lia.
    apply list_lookup_insert_eq. lia.
  - rewrite !list_lookup_insert_ne by lia.
    apply list_lookup_insert_eq. rewrite !length_insert. lia.
  - rewrite !list_lookup_insert_ne by lia.
    apply list_lookup_insert_eq. rewrite !length_insert. lia.
  - apply list_lookup_insert_eq. rewrite !length_insert. lia.
Qed.

Lemma lookup_four_ne (a : list byte) o j (b0 b1 b2 b3 : byte) :
  j < o \/ o + 4 <= j ->
  <[o + 3 := b3]> (<[o + 2 := b2]> (<[o + 1 := b1]> (<[o := b0]> a))) !! j
  = a !! j.
Proof. intros H. by rewrite !list_lookup_insert_ne by lia. Qed.

Lemma length_four (a : list byte) o (b0 b1 b2 b3 : byte) :
  length (<[o + 3 := b3]> (<[o + 2 := b2]> (<[o + 1 := b1]> (<[o := b0]> a))))
  = length a.
Proof. by rewrite !length_insert. Qed.

(** The loop body touches no array but the destination's. *)
Lemma map_pixel_frame x y s l :
  l <> data dst ->
  heap (map_pixel src st dst dt x y s) !! l = heap s !! l.
Proof.
  intros H. unfold map_pixel.
  destruct (_ && _); cbn zeta; rewrite !lookup_store_ne by done; done.
Qed.

(** Outside the triangle the body stores 255 four times. *)
Lemma map_pixel_outside x y s da :
  (Z.of_nat (offset (width dst) x y + 3) <= N)%Z ->
  in_triangle (cartesian_to_barycentric dt (nvec x y)) = false ->
  heap s !! data dst = Some da ->
  heap (map_pixel src st dst dt x y s) !! data dst
  = Some (<[offset (width dst) x y + 3 := xff]>
            (<[offset (width dst) x y + 2 := xff]>
               (<[offset (width dst) x y + 1 := xff]>
                  (<[offset (width dst) x y := xff]> da)))).
Proof.
  intros HNo Hout Hda. unfold map_pixel.
  change (cartesian_to_barycentric dt (of_nat x, of_nat y))
    with (cartesian_to_barycentric dt (nvec x y)).
  fold (in_triangle (cartesian_to_barycentric dt (nvec x y))).
  rewrite Hout. cbn zeta.
  rewrite !lookup_store_eq, Hda. cbn [fmap option_fmap option_map].
  rewrite (of_nat_offset N HN _ _ _ 1), (of_nat_offset N HN _ _ _ 2),
    (of_nat_offset N HN _ _ _ 3), (of_nat_offset_0 N HN), !typed_set_of_nat
    by lia.
  cbn [ToNumber]. by rewrite ToUint8Clamp_255.
Qed.

(** Inside the triangle, when the source array is not the destination
    array, the body stores the four bytes sampled from the source. *)
Lemma map_pixel_inside x y s sa da :
  (Z.of_nat (offset (width dst) x y + 3) <= N)%Z ->
  data src <> data dst ->
  in_triangle (cartesian_to_barycentric dt (nvec x y)) = true ->
  heap s !! data src = Some sa ->
  heap s !! data dst = Some da ->
  heap (map_pixel src st dst dt x y s) !! data dst
  = Some (<[offset (width dst) x y + 3 :=
              sample sa (source_start (width src) st dt x y + of_Z 3)%num]>
            (<[offset (width dst) x y + 2 :=
                 sample sa (source_start (width src) st dt x y + of_Z 2)%num]>
               (<[offset (width dst) x y + 1 :=
                    sample sa (source_start (width src) st dt x y + of_Z 1)%num]>
                  (<[offset (width dst) x y :=
                       sample sa (source_start (width src) st dt x y)]> da)))).
Proof.
  intros HNo Hne Hin Hsa Hda. unfold map_pixel.
  change (cartesian_to_barycentric dt (of_nat x, of_nat y))
    with (cartesian_to_barycentric dt (nvec x y)).
  fold (in_triangle (cartesian_to_barycentric dt (nvec x y))).
  rewrite Hin. cbn zeta.
  fold (source_start (width src) st dt x y).
  assert (Hne' : data dst <> data src) by congruence.
  rewrite !lookup_store_eq, !load_store_ne by done.
  unfold load. cbn [heap set_src_pixel_start set_src_xy].
  rewrite Hda, Hsa. cbn [fmap option_fmap option_map].
  rewrite (of_nat_offset N HN _ _ _ 1), (of_nat_offset N HN _ _ _ 2),
    (of_nat_offset N HN _ _ _ 3), (of_nat_offset_0 N HN), !typed_set_of_nat
    by lia.
  reflexivity.
Qed.

End Pixel.


(* ===================================================================== *)
(** ** The two loops *)
(* ===================================================================== *)

Section Run.

Local Close Scope Qc_scope.

Context {R : Rounding} (N : Z) (HN : exact_integers R N).

Variables (src : ImageData) (st : Triangle) (dst : ImageData) (dt : Triangle).

Implicit Types (s : State) (ps : list (nat * nat)) (p : nat * nat).

Lemma map_triangle_run s :
  map_triangle src st dst dt s
  = run src st dst dt (pixels (width dst) (height dst)) s.
Proof.
  unfold map_triangle, run, pixels. revert s.
  induction (seq 0 (width dst)) as [|x xs IH]; intros s; [done|].
  rewrite bind_cons, foldl_app, foldl_fmap. cbn [foldl]. apply IH.
Qed.

Lemma run_snoc ps p s :
  run src st dst dt (ps ++ [p]) s
  = map_pixel src st dst dt p.1 p.2 (run src st dst dt ps s).
Proof. unfold run. by rewrite foldl_app. Qed.

Lemma elem_of_pixels w h p : p ∈ pixels w h <-> p.1 < w /\ p.2 < h.
Proof.
  unfold pixels. rewrite list_elem_of_bind. split.
  - intros (x & Hp & Hx). apply list_elem_of_fmap in Hp as (y & -> & Hy).
    apply elem_of_seq in Hx. apply elem_of_seq in Hy. cbn. lia.
  - intros [Hx Hy]. exists p.1. split.
    + apply list_elem_of_fmap. exists p.2. split; [by destruct p|].
      apply elem_of_seq. lia.
    + apply elem_of_seq. lia.
Qed.

Lemma NoDup_pixels w h : NoDup (pixels w h).
Proof.
  unfold pixels. apply NoDup_bind.
  - intros x1 x2 p _ _ H1 H2.
    apply list_elem_of_fmap in H1 as (y1 & -> & _).
    apply list_elem_of_fmap in H2 as (y2 & E & _). congruence.
  - intros x _. apply NoDup_fmap_2; [|apply NoDup_seq].
    intros y1 y2 E. congruence.
  - apply NoDup_seq.
Qed.

(** Distinct pixels of a row-major array of width [w] do not overlap. *)
Lemma offset_disjoint w p q :
  p <> q -> p.1 < w -> q.1 < w ->
  offset w p.1 p.2 + 4 <= offset w q.1 q.2 \/
  offset w q.1 q.2 + 4 <= offset w p.1 p.2.
Proof.
  destruct p as [x y], q as [x' y']. cbn [fst snd]. unfold offset.
  intros Hne Hx Hx'.
  destruct (decide (y = y')) as [->|Hy].
  - assert (x <> x') by congruence. lia.
  - destruct (decide (y < y')).
    + left. assert (y * w + w <= y' * w) by nia. lia.
    + right. assert (y' * w + w <= y * w) by nia. lia.
Qed.

Lemma offset_in_range w h x y :
  x < w -> y < h -> offset w x y + 4 <= 4 * w * h.
Proof. unfold offset. intros Hx Hy. nia. Qed.

(** The loop body changes the destination array by four list updates at
    the pixel, whatever the aliasing. *)
Lemma map_pixel_dst x y s da :
  (Z.of_nat (offset (width dst) x y + 3) <= N)%Z ->
  heap s !! data dst = Some da ->
  exists b0 b1 b2 b3,
    heap (map_pixel src st dst dt x y s) !! data dst
    = Some (<[offset (width dst) x y + 3 := b3]>
              (<[offset (width dst) x y + 2 := b2]>
                 (<[offset (width dst) x y + 1 := b1]>
                    (<[offset (width dst) x y := b0]> da)))).
Proof.
  intros HNo Hda. unfold map_pixel. destruct (_ && _); cbn zeta.
  all: rewrite !lookup_store_eq; cbn [heap set_src_pixel_start set_src_xy].
  all: rewrite Hda; cbn [fmap option_fmap option_map].
  all: rewrite (of_nat_offset N HN _ _ _ 1), (of_nat_offset N HN _ _ _ 2),
         (of_nat_offset N HN _ _ _ 3), (of_nat_offset_0 N HN),
         !typed_set_of_nat by lia.
  all: eauto.
Qed.

Lemma map_pixel_dst_None x y s :
  heap s !! data dst = None ->
  heap (map_pixel src st dst dt x y s) !! data dst = None.
Proof.
  intros Hda. unfold map_pixel. destruct (_ && _); cbn zeta.
  all: rewrite !lookup_store_eq; cbn [heap set_src_pixel_start set_src_xy].
  all: by rewrite Hda.
Qed.

Lemma length_store (l k : loc) i v s :
  length <$> heap (store l i v s) !! k = length <$> heap s !! k.
Proof.
  destruct (decide (l = k)) as [->|Hne].
  - rewrite lookup_store_eq. destruct (heap s !! k); [|done].
    cbn. by rewrite length_typed_set.
  - by rewrite lookup_store_ne.
Qed.

(** The loop body keeps the length of every array. *)
Lemma map_pixel_length x y s (l : loc) :
  length <$> heap (map_pixel src st dst dt x y s) !! l
  = length <$> heap s !! l.
Proof.
  unfold map_pixel. destruct (_ && _); cbn zeta; by rewrite !length_store.
Qed.

Lemma run_frame ps s l :
  l <> data dst -> heap (run src st dst dt ps s) !! l = heap s !! l.
Proof.
  intros Hl. induction ps as [|p ps IH] using rev_ind; [done|].
  by rewrite run_snoc, map_pixel_frame.
Qed.

(** An invariant [P] of the states and a property [Q] of the bytes written
    at each pixel carry over to the whole run, as no later pixel overwrites
    an earlier one. *)
Lemma run_invariant (P : State -> Prop) (Q : nat * nat -> list byte -> Prop)
    (n : nat) :
  (Z.of_nat n <= N)%Z ->
  (forall p s, P s -> P (map_pixel src st dst dt p.1 p.2 s)) ->
  (forall p s da da',
      P s -> heap s !! data dst = Some da -> length da = n ->
      offset (width dst) p.1 p.2 + 4 <= n ->
      heap (map_pixel src st dst dt p.1 p.2 s) !! data dst = Some da' ->
      Q p (pixel_bytes da' (offset (width dst) p.1 p.2))) ->
  forall ps s da,
    NoDup ps ->
    (forall p, p ∈ ps ->
               p.1 < width dst /\ offset (width dst) p.1 p.2 + 4 <= n) ->
    P s -> heap s !! data dst = Some da -> length da = n ->
    exists da',
      heap (run src st dst dt ps s) !! data dst = Some da' /\
      length da' = n /\
      P (run src st dst dt ps s) /\
      forall p, p ∈ ps -> Q p (pixel_bytes da' (offset (width dst) p.1 p.2)).
Proof.
  intros HnN HP HQ ps s da. induction ps as [|p ps IH] using rev_ind.
  - intros _ _ Hs Hda Hn. exists da. repeat split; try done.
    intros p Hp. by apply elem_of_nil in Hp.
  - intros Hnd Hps Hs Hda Hn.
    apply NoDup_app in Hnd as (Hnd & Hfresh & _).
    destruct IH as (da1 & Hda1 & Hn1 & Hs1 & Hq1); try done.
    { intros q Hq. apply Hps, elem_of_app. by left. }
    destruct (map_pixel_dst p.1 p.2 (run src st dst dt ps s) da1)
      as (b0 & b1 & b2 & b3 & Hda2); [|done|].
    { destruct (Hps p) as [_ Hpn];
        [apply elem_of_app; right; by apply list_elem_of_singleton|]. lia. }
    rewrite run_snoc. eexists. split; [exact Hda2|].
    split; [by rewrite length_four|]. split; [by apply HP|].
    intros q Hq. apply elem_of_app in Hq as [Hq|Hq].
    + assert (q <> p) as Hne.
      { intros ->. apply (Hfresh p Hq). by apply list_elem_of_singleton. }
      destruct (Hps q) as [Hqw _]; [apply elem_of_app; by left|].
      destruct (Hps p) as [Hpw _];
        [apply elem_of_app; right; by apply list_elem_of_singleton|].
      pose proof (offset_disjoint _ _ _ Hne Hqw Hpw) as Hd.
      rewrite (pixel_bytes_ext _ da1).
      * by apply Hq1.
      * intros c Hc. apply lookup_four_ne. lia.
    + apply list_elem_of_singleton in Hq as ->.
      destruct (Hps p) as [_ Hpn];
        [apply elem_of_app; right; by apply list_elem_of_singleton|].
      by apply (HQ p (run src st dst dt ps s) da1).
Qed.

End Run.

(* ===================================================================== *)
(** ** The destination array after the call *)
(* ===================================================================== *)

Section Result.

Local Close Scope Qc_scope.

Context {R : Rounding} (N : Z) (HN : exact_integers R N).

Variables (src : ImageData) (st : Triangle) (dst : ImageData) (dt : Triangle).

Implicit Types (s : State).

(** Every pixel holds the bytes computed for it from the source array, when
    that array is not the destination's. *)
Lemma map_triangle_result s sa da :
  data src <> data dst ->
  heap s !! data src = Some sa ->
  heap s !! data dst = Some da ->
  length da = 4 * width dst * height dst ->
  (Z.of_nat (4 * width dst * height dst) <= N)%Z ->
  exists da',
    heap (map_triangle src st dst dt s) !! data dst = Some da' /\
    length da' = 4 * width dst * height dst /\
    forall x y, x < width dst -> y < height dst ->
      pixel_bytes da' (offset (width dst) x y)
      = pixel_value sa (width src) st dt x y.
Proof.
  intros Hne Hsa Hda Hlen HNl. rewrite map_triangle_run.
  destruct (run_invariant N HN src st dst dt
              (fun s => heap s !! data src = Some sa)
              (fun p bs => bs = pixel_value sa (width src) st dt p.1 p.2)
              (4 * width dst * height dst))
    with (ps := pixels (width dst) (height dst)) (s := s) (da := da)
    as (da' & Hda' & Hlen' & _ & Hq); try done.
  - intros p s' Hs'. by rewrite map_pixel_frame.
  - intros [x y] s' d d' Hs' Hd Hn Ho Hd'. cbn [fst snd] in *.
    unfold pixel_value.
    destruct (in_triangle (cartesian_to_barycentric dt (nvec x y))) eqn:Hin.
    + rewrite (map_pixel_inside N HN src st dst dt x y s' sa d) in Hd'
        by (done || lia).
      injection Hd' as <-. apply lookup_four_eq. lia.
    + rewrite (map_pixel_outside N HN src st dst dt x y s' d) in Hd'
        by (done || lia).
      injection Hd' as <-. apply lookup_four_eq. lia.
  - apply NoDup_pixels.
  - intros p [Hx Hy]%elem_of_pixels. split; [done|].
    by apply offset_in_range.
  - exists da'. repeat split; try done.
    intros x y Hx Hy. apply (Hq (x, y)). by apply elem_of_pixels.
Qed.

(** Every pixel outside the triangle is white, whatever the source. *)
Lemma map_triangle_outside s da :
  heap s !! data dst = Some da ->
  length da = 4 * width dst * height dst ->
  (Z.of_nat (4 * width dst * height dst) <= N)%Z ->
  exists da',
    heap (map_triangle src st dst dt s) !! data dst = Some da' /\
    length da' = 4 * width dst * height dst /\
    forall x y, x < width dst -> y < height dst ->
      in_triangle (cartesian_to_barycentric dt (nvec x y)) = false ->
      pixel_bytes da' (offset (width dst) x y) = white.
Proof.
  intros Hda Hlen HNl. rewrite map_triangle_run.
  destruct (run_invariant N HN src st dst dt
              (fun s => True)
              (fun p bs =>
                 in_triangle (cartesian_to_barycentric dt (nvec p.1 p.2))
                 = false -> bs = white)
              (4 * width dst * height dst))
    with (ps := pixels (width dst) (height dst)) (s := s) (da := da)
    as (da' & Hda' & Hlen' & _ & Hq); try done.
  - intros [x y] s' d d' _ Hd Hn Ho Hd' Hout. cbn [fst snd] in *.
    rewrite (map_pixel_outside N HN src st dst dt x y s' d) in Hd'
      by (done || lia).
    injection Hd' as <-. apply lookup_four_eq. lia.
  - apply NoDup_pixels.
  - intros p [Hx Hy]%elem_of_pixels. split; [done|].
    by apply offset_in_range.
  - exists da'. repeat split; try done.
    intros x y Hx Hy. apply (Hq (x, y)). by apply elem_of_pixels.
Qed.

Lemma map_triangle_frame s l :
  l <> data dst -> heap (map_triangle src st dst dt s) !! l = heap s !! l.
Proof. intros H. rewrite map_triangle_run. by apply run_frame. Qed.

(** The length of every pixel array is kept. *)
Lemma map_triangle_length s l :
  length <$> heap (map_triangle src st dst dt s) !! l
  = length <$> heap s !! l.
Proof.
  rewrite map_triangle_run.
  induction (pixels (width dst) (height dst)) as [|p ps IH] using rev_ind;
    [done|].
  by rewrite run_snoc, map_pixel_length.
Qed.

End Result.

Section Arrays.

Local Close Scope Qc_scope.

(** Two arrays of [w * h] pixels with the same bytes at every pixel are
    equal. *)
Lemma arrays_eq_pixels (w h : nat) (a a' : list byte) :
  length a = 4 * w * h -> length a' = 4 * w * h ->
  (forall x y, x < w -> y < h ->
     pixel_bytes a (offset w x y) = pixel_bytes a' (offset w x y)) ->
  a = a'.
Proof.
  intros Ha Ha' H. apply list_eq. intros i.
  destruct (decide (i < 4 * w * h)) as [Hi|Hi].
  - assert (0 < w) as Hw by nia.
    pose proof (Nat.div_mod_eq i 4) as E4.
    pose proof (Nat.mod_upper_bound i 4 ltac:(lia)) as Hc.
    pose proof (Nat.div_mod_eq (i / 4) w) as Ew.
    pose proof (Nat.mod_upper_bound (i / 4) w ltac:(lia)) as Hx.
    assert (i / 4 / w < h) as Hy.
    { apply Nat.Div0.div_lt_upper_bound.
      apply Nat.Div0.div_lt_upper_bound. lia. }
    assert (i = offset w ((i / 4) mod w) (i / 4 / w) + i mod 4) as ->.
    { unfold offset. lia. }
    rewrite <- !pixel_bytes_lookup by done. by rewrite H.
  - rewrite !lookup_ge_None_2 by lia. done.
Qed.

Lemma pixel_bytes_replicate (n o : nat) (b : byte) :
  o + 4 <= n -> pixel_bytes (replicate n b) o = [b; b; b; b].
Proof.
  intros H. apply pixel_bytes_eq; apply lookup_replicate_2; lia.
Qed.

End Arrays.

(* ===================================================================== *)
(** ** What the call depends on *)
(* ===================================================================== *)

Section Locality.

Local Close Scope Qc_scope.

Context {R : Rounding}.

Variables (src : ImageData) (st : Triangle) (dst : ImageData) (dt : Triangle).

Implicit Types (s : State).

Lemma store_agree (l k : loc) i v s1 s2 :
  heap s1 !! k = heap s2 !! k ->
  heap (store l i v s1) !! k = heap (store l i v s2) !! k.
Proof.
  intros H. destruct (decide (l = k)) as [->|Hne].
  - by rewrite !lookup_store_eq, H.
  - by rewrite !lookup_store_ne.
Qed.

Lemma load_agree (k : loc) j s1 s2 :
  heap s1 !! k = heap s2 !! k -> load s1 k j = load s2 k j.
Proof. intros H. unfold load. by rewrite H. Qed.

(** The arrays of the two images after the loop body depend on nothing but
    these two arrays before it. *)
Lemma map_pixel_agree x y s1 s2 :
  heap s1 !! data src = heap s2 !! data src ->
  heap s1 !! data dst = heap s2 !! data dst ->
  heap (map_pixel src st dst dt x y s1) !! data src
  = heap (map_pixel src st dst dt x y s2) !! data src /\
  heap (map_pixel src st dst dt x y s1) !! data dst
  = heap (map_pixel src st dst dt x y s2) !! data dst.
Proof.
  intros Hs Hd.
  assert (forall i j t1 t2,
            heap t1 !! data src = heap t2 !! data src /\
            heap t1 !! data dst = heap t2 !! data dst ->
            heap (store (data dst) i (load t1 (data src) j) t1) !! data src
            = heap (store (data dst) i (load t2 (data src) j) t2) !! data src /\
            heap (store (data dst) i (load t1 (data src) j) t1) !! data dst
            = heap (store (data dst) i (load t2 (data src) j) t2) !! data dst)
    as Hcopy.
  { intros i j t1 t2 [H1 H2]. rewrite (load_agree _ _ _ _ H1).
    split; by apply store_agree. }
  unfold map_pixel. destruct (_ && _); cbn zeta.
  - do 4 apply Hcopy. by split.
  - split; by do 4 apply store_agree.
Qed.

Lemma map_triangle_agree s1 s2 :
  heap s1 !! data src = heap s2 !! data src ->
  heap s1 !! data dst = heap s2 !! data dst ->
  heap (map_triangle src st dst dt s1) !! data dst
  = heap (map_triangle src st dst dt s2) !! data dst.
Proof.
  intros Hs Hd. rewrite !map_triangle_run.
  enough (heap (run src st dst dt (pixels (width dst) (height dst)) s1)
            !! data src
          = heap (run src st dst dt (pixels (width dst) (height dst)) s2)
            !! data src /\
          heap (run src st dst dt (pixels (width dst) (height dst)) s1)
            !! data dst
          = heap (run src st dst dt (pixels (width dst) (height dst)) s2)
            !! data dst) by tauto.
  induction (pixels (width dst) (height dst)) as [|p ps IH] using rev_ind.
  - by split.
  - rewrite !run_snoc. destruct IH. by apply map_pixel_agree.
Qed.

End Locality.


(* ===================================================================== *)
(** ** The inside test and the reads, under any rounding *)
(* ===================================================================== *)

Section Sampling.

Local Close Scope Qc_scope.

Context {R : Rounding}.

Implicit Types (a sa : list byte) (i : number) (n : nat).

(** An index of an array is a natural number below its length. *)
Lemma index_of_Some i len n :
  index_of i len = Some n -> i = of_nat n /\ n < len.
Proof.
  destruct i as [q| | |]; try discriminate. unfold index_of.
  destruct (Qc_eq_bool (zq (Qfloor q)) q) eqn:Eq; [|discriminate].
  destruct (0 <=? Qfloor q)%Z eqn:E0; [|discriminate].
  destruct (Qfloor q <? Z.of_nat len)%Z eqn:E1; [|discriminate].
  cbn [andb]. intros [= <-].
  apply Qc_eq_bool_true in Eq. apply Z.leb_le in E0. apply Z.ltb_lt in E1.
  split; [|lia]. unfold of_nat, of_Z. rewrite Z2Nat.id by done.
  by rewrite Eq.
Qed.

Lemma sample_no_index a i : index_of i (length a) = None -> sample a i = x00.
Proof. intros H. unfold sample, typed_get. by rewrite H. Qed.

Lemma sample_of_nat a n b : a !! n = Some b -> sample a (of_nat n) = b.
Proof.
  intros H. unfold sample. rewrite typed_get_of_nat, H.
  apply ToUint8Clamp_byte.
Qed.

(** The test fails as soon as a coordinate is not finite. *)
Lemma in_triangle_finite (uv : Vec) :
  in_triangle uv = true -> is_finite uv.1 = true /\ is_finite uv.2 = true.
Proof.
  destruct uv as [[u| | |] [v| | |]]; cbv [in_triangle nge nle nadd fst snd];
    rewrite ?andb_false_r; try discriminate.
  done.
Qed.

Lemma in_triangle_not_finite (uv : Vec) :
  is_finite uv.1 = false -> in_triangle uv = false.
Proof.
  intros H. destruct (in_triangle uv) eqn:E; [|done].
  apply in_triangle_finite in E as [E _]. congruence.
Qed.

(** A product with the infinity that [1 / 0] is has no finite value. *)
Lemma nmul_PInf (a : number) : is_finite (a * PInf)%num = false.
Proof.
  destruct a as [q| | |]; try done. cbn [nmul]. by destruct (q ?= 0)%Qc.
Qed.

Lemma cartesian_to_barycentric_denominator (t : Triangle) (xy : Vec) :
  exists n1 n2 : number,
    cartesian_to_barycentric t xy
    = ((n1 * (1 / computed_denominator t))%num,
       (n2 * (1 / computed_denominator t))%num).
Proof. by eexists _, _. Qed.

(** When the computed denominator is zero no coordinate is finite. *)
Lemma zero_denominator_not_finite (t : Triangle) (xy : Vec) :
  is_zero (computed_denominator t) = true ->
  is_finite (cartesian_to_barycentric t xy).1 = false /\
  is_finite (cartesian_to_barycentric t xy).2 = false.
Proof.
  intros Hz.
  destruct (cartesian_to_barycentric_denominator t xy) as (n1 & n2 & ->).
  destruct (computed_denominator t) as [q| | |]; try discriminate.
  apply Qc_eq_bool_true in Hz. subst q.
  change (1 / Fin 0)%num with PInf. cbn [fst snd]. by rewrite !nmul_PInf.
Qed.

End Sampling.

Section SamplingIntegers.

Local Close Scope Qc_scope.

Context {R : Rounding} (N : Z) (HN : exact_integers R N).

(** Four reads from an index on, inside the array. *)
Lemma samples_at_index (sa : list byte) (i : number) (n : nat) :
  index_of i (length sa) = Some n ->
  n + 4 <= length sa ->
  (Z.of_nat (length sa) <= N)%Z ->
  [sample sa i; sample sa (i + of_Z 1)%num;
   sample sa (i + of_Z 2)%num; sample sa (i + of_Z 3)%num]
  = pixel_bytes sa n.
Proof.
  intros Hi Hn HNl. apply index_of_Some in Hi as [-> _].
  assert (forall k : nat, k < 4 ->
            sa !! (n + k) = Some (sample sa (of_nat (n + k)))) as Hk.
  { intros k Hk.
    destruct (lookup_lt_is_Some_2 sa (n + k)) as [b Hb]; [lia|].
    rewrite Hb. f_equal. symmetry. by apply sample_of_nat. }
  unfold of_nat at 2 3 4.
  change 1%Z with (Z.of_nat 1). change 2%Z with (Z.of_nat 2).
  change 3%Z with (Z.of_nat 3).
  rewrite !(of_Z_add N HN) by lia. rewrite <- !Nat2Z.inj_add.
  fold (of_nat (n + 1)) (of_nat (n + 2)) (of_nat (n + 3)).
  symmetry. apply pixel_bytes_eq.
  - rewrite <- (Nat.add_0_r n) at 2. rewrite <- (Hk 0) by lia.
    f_equal. lia.
  - apply (Hk 1). lia.
  - apply (Hk 2). lia.
  - apply (Hk 3). lia.
Qed.

End SamplingIntegers.

(* ===================================================================== *)
(** ** The coordinate transform in exact arithmetic *)
(* ===================================================================== *)

Section ExactArithmetic.

#[local] Existing Instance exact_arithmetic.

Implicit Types a b c p uv : Qc * Qc.

Lemma of_Z_add_exact (a b : Z) : (of_Z a + of_Z b)%num = of_Z (a + b).
Proof. unfold of_Z. cbn [nadd]. by rewrite zq_add. Qed.

Lemma of_Z_mul_exact (a b : Z) : (of_Z a * of_Z b)%num = of_Z (a * b).
Proof. unfold of_Z. cbn [nmul]. by rewrite zq_mul. Qed.

Lemma denominator_area2 a b c : denominator a b c = area2 a b c * area2 a b c.
Proof.
  destruct a, b, c. unfold denominator, area2, qdot, qsub. cbv [fst snd]. ring.
Qed.

Lemma numerator_u_area2 a b c p :
  numerator_u a b c p
  = area2 a b c *
    ((p.1 - a.1) * (b.2 - a.2) - (p.2 - a.2) * (b.1 - a.1)).
Proof.
  destruct a, b, c, p.
  unfold numerator_u, area2, qdot, qsub. cbv [fst snd]. ring.
Qed.

Lemma numerator_v_area2 a b c p :
  numerator_v a b c p
  = area2 a b c *
    ((c.1 - a.1) * (p.2 - a.2) - (c.2 - a.2) * (p.1 - a.1)).
Proof.
  destruct a, b, c, p.
  unfold numerator_v, area2, qdot, qsub. cbv [fst snd]. ring.
Qed.

Lemma degenerate_true a b c : degenerate a b c = true <-> area2 a b c = 0.
Proof. apply Qc_eq_bool_true. Qed.

Lemma degenerate_false a b c : degenerate a b c = false <-> area2 a b c <> 0.
Proof. apply Qc_eq_bool_false. Qed.

Lemma denominator_nonzero a b c :
  degenerate a b c = false -> denominator a b c <> 0.
Proof.
  rewrite degenerate_false, denominator_area2. intros H E.
  apply Qcmult_integral in E. tauto.
Qed.

(** The shape of the result on finite input, before the division. *)
Lemma cartesian_to_barycentric_qvec a b c p :
  cartesian_to_barycentric (qtri a b c) (qvec p)
  = ((Fin (numerator_u a b c p) * (1 / Fin (denominator a b c)))%num,
     (Fin (numerator_v a b c p) * (1 / Fin (denominator a b c)))%num).
Proof. reflexivity. Qed.

Lemma barycentric_to_cartesian_qvec a b c uv :
  barycentric_to_cartesian (qtri a b c) (qvec uv) = qvec (combine a b c uv).
Proof.
  destruct a, b, c, uv.
  cbv [barycentric_to_cartesian qtri qvec combine corner0 corner1 corner2
       sub add mul nsub nadd nmul nneg fst snd].
  f_equal; f_equal; ring.
Qed.

Lemma ndiv_one_nonzero (d : Qc) : d <> 0 -> (1 / Fin d)%num = Fin (/ d).
Proof.
  intros H. cbv [ndiv]. apply Qc_eq_bool_false in H. rewrite H.
  unfold round, exact_arithmetic. f_equal. unfold Qcdiv. ring.
Qed.

Lemma ndiv_one_zero : (1 / Fin 0)%num = PInf.
Proof. reflexivity. Qed.

(** On a triangle that is not degenerate the result is the pair of exact
    quotients. *)
Lemma cartesian_to_barycentric_finite a b c p :
  degenerate a b c = false ->
  cartesian_to_barycentric (qtri a b c) (qvec p)
  = qvec (barycentric a b c p).
Proof.
  intros H. rewrite cartesian_to_barycentric_qvec.
  rewrite (ndiv_one_nonzero _ (denominator_nonzero _ _ _ H)).
  reflexivity.
Qed.

(** On a degenerate triangle both numerators vanish with the denominator,
    and the products [0 * Infinity] are NaN. *)
Lemma cartesian_to_barycentric_degenerate a b c p :
  degenerate a b c = true ->
  cartesian_to_barycentric (qtri a b c) (qvec p) = (NaN, NaN).
Proof.
  rewrite degenerate_true. intros H. rewrite cartesian_to_barycentric_qvec.
  rewrite numerator_u_area2, numerator_v_area2, denominator_area2, H.
  rewrite !Qcmult_0_l. reflexivity.
Qed.

Lemma combine_barycentric a b c p :
  degenerate a b c = false -> combine a b c (barycentric a b c p) = p.
Proof.
  intros H. pose proof (denominator_nonzero _ _ _ H) as Hd.
  destruct a as [ax ay], b as [bx by'], c as [cx cy], p as [px py].
  unfold barycentric, combine, numerator_u, numerator_v, denominator, qdot, qsub in *.
  cbv [fst snd] in *. f_equal; field; exact Hd.
Qed.

Lemma barycentric_combine a b c uv :
  degenerate a b c = false -> barycentric a b c (combine a b c uv) = uv.
Proof.
  intros H. pose proof (denominator_nonzero _ _ _ H) as Hd.
  destruct a as [ax ay], b as [bx by'], c as [cx cy], uv as [u v].
  unfold barycentric, combine, numerator_u, numerator_v, denominator, qdot, qsub in *.
  cbv [fst snd] in *. f_equal; field; exact Hd.
Qed.


Lemma nvec_qvec (x y : nat) : nvec x y = qvec (qpix x y).
Proof. reflexivity. Qed.

Lemma in_triangle_qvec uv :
  in_triangle (qvec uv) = true <-> 0 <= uv.1 /\ 0 <= uv.2 /\ uv.1 + uv.2 <= 1.
Proof.
  destruct uv as [u v]. cbv [in_triangle qvec nge nle nadd round exact_arithmetic fst snd].
  rewrite !andb_true_iff, !Qle_bool_iff. unfold Qcle. tauto.
Qed.

Lemma in_triangle_nondegenerate a b c p :
  in_triangle (cartesian_to_barycentric (qtri a b c) (qvec p)) = true ->
  degenerate a b c = false.
Proof.
  destruct (degenerate a b c) eqn:E; [|done].
  by rewrite cartesian_to_barycentric_degenerate.
Qed.

(** The source position of a pixel is a finite integer when both triangles
    are finite and the destination triangle is not degenerate. *)
Lemma source_start_finite (w : nat) a' b' c' a b c (x y : nat) :
  degenerate a b c = false ->
  source_start w (qtri a' b' c') (qtri a b c) x y
  = of_Z (4 * (Qfloor (combine a' b' c' (barycentric a b c (qpix x y))).1
               + Qfloor (combine a' b' c' (barycentric a b c (qpix x y))).2
                 * Z.of_nat w)).
Proof.
  intros H. unfold source_start.
  rewrite nvec_qvec, (cartesian_to_barycentric_finite _ _ _ _ H),
    barycentric_to_cartesian_qvec.
  cbn [qvec fst snd]. rewrite !floor_Fin. unfold PIXEL_WIDTH, of_nat.
  by rewrite of_Z_mul_exact, of_Z_add_exact, of_Z_mul_exact.
Qed.

Lemma samples_in_range (sa : list byte) (o : Z) :
  (0 <= o)%Z -> (o + 4 <= Z.of_nat (length sa))%Z ->
  [sample sa (of_Z o); sample sa (of_Z o + of_Z 1)%num;
   sample sa (of_Z o + of_Z 2)%num; sample sa (of_Z o + of_Z 3)%num]
  = pixel_bytes sa (Z.to_nat o).
Proof.
  intros H0 H1. rewrite !of_Z_add_exact. symmetry.
  assert (forall k, (0 <= k < 4)%Z ->
            sa !! (Z.to_nat o + Z.to_nat k)%nat = Some (sample sa (of_Z (o + k))))
    as Hk.
  { intros k Hk.
    destruct (lookup_lt_is_Some_2 sa (Z.to_nat o + Z.to_nat k)%nat) as [b Hb];
      [lia|].
    rewrite Hb. f_equal. symmetry. apply sample_in_range; [lia|].
    by replace (Z.to_nat (o + k)) with (Z.to_nat o + Z.to_nat k)%nat by lia. }
  apply pixel_bytes_eq.
  - rewrite <- (Z.add_0_r o) at 2. rewrite <- (Hk 0%Z) by lia.
    f_equal. lia.
  - apply (Hk 1%Z). lia.
  - apply (Hk 2%Z). lia.
  - apply (Hk 3%Z). lia.
Qed.

Lemma samples_out_of_range (sa : list byte) (o : Z) :
  (o + 3 < 0 \/ Z.of_nat (length sa) <= o)%Z ->
  [sample sa (of_Z o); sample sa (of_Z o + of_Z 1)%num;
   sample sa (of_Z o + of_Z 2)%num; sample sa (of_Z o + of_Z 3)%num]
  = [x00; x00; x00; x00].
Proof.
  intros H. rewrite !of_Z_add_exact.
  by rewrite !sample_out_of_range by lia.
Qed.


Lemma source_start_identity (w : nat) a b c (x y : nat) :
  degenerate a b c = false ->
  source_start w (qtri a b c) (qtri a b c) x y = of_nat (offset w x y).
Proof.
  intros H. rewrite source_start_finite, combine_barycentric by done.
  unfold qpix, of_nat, offset. cbn [fst snd]. rewrite !Qfloor_zq.
  f_equal. lia.
Qed.

Lemma pixel_value_identity sa (w : nat) a b c (x y : nat) :
  (offset w x y + 4 <= length sa)%nat ->
  pixel_value sa w (qtri a b c) (qtri a b c) x y
  = if in_triangle (cartesian_to_barycentric (qtri a b c) (nvec x y))
    then pixel_bytes sa (offset w x y)
    else white.
Proof.
  intros Hlen. unfold pixel_value.
  destruct (in_triangle _) eqn:Hin; [|done].
  rewrite nvec_qvec in Hin. apply in_triangle_nondegenerate in Hin.
  rewrite source_start_identity by done. unfold of_nat.
  rewrite samples_in_range by lia. by rewrite Nat2Z.id.
Qed.

(** The triangle (0,0), (0,10), (10,10) contains the pixel [(x, y)] of a
    10 x 10 grid exactly when [x <= y]. *)
Lemma identity_classification :
  forallb
    (fun xy : nat * nat =>
       Bool.eqb
         (in_triangle
            (cartesian_to_barycentric (qtri (qp 0 0) (qp 0 10) (qp 10 10))
               (nvec xy.1 xy.2)))
         (xy.1 <=? xy.2)%nat)
    (pixels 10 10)
  = true.
Proof. vm_compute. reflexivity. Qed.

Lemma identity_inside (x y : nat) :
  (x < 10)%nat -> (y < 10)%nat ->
  in_triangle
    (cartesian_to_barycentric (qtri (qp 0 0) (qp 0 10) (qp 10 10)) (nvec x y))
  = bool_decide (x <= y)%nat.
Proof.
  intros Hx Hy. pose proof identity_classification as H.
  rewrite forallb_forall in H.
  assert (In (x, y) (pixels 10 10)) as Hin.
  { apply list_elem_of_In, elem_of_pixels. by cbn. }
  apply H, Bool.eqb_prop in Hin. cbn [fst snd] in Hin. rewrite Hin.
  symmetry. destruct (Nat.leb_spec x y).
  - apply bool_decide_eq_true_2. lia.
  - apply bool_decide_eq_false_2. lia.
Qed.

(** A combination of three values with weights that are not negative and
    sum to 1 stays between their bounds. *)
Lemma convex_bound (lo hi pa pb pc u v : Qc) :
  lo <= pa <= hi -> lo <= pb <= hi -> lo <= pc <= hi ->
  0 <= u -> 0 <= v -> u + v <= 1 ->
  lo <= pa + u * (pc - pa) + v * (pb - pa) <= hi.
Proof.
  unfold Qcle.
  rewrite !this_add, !this_mul, !this_sub.
  change (this (Q2Qc 0)) with 0%Q. change (this (Q2Qc 1)) with 1%Q.
  intros [? ?] [? ?] [? ?] ? ? ?. split; nra.
Qed.


End ExactArithmetic.

(* ===================================================================== *)
(** ** Laws of the arithmetic that hold for every rounding *)
(* ===================================================================== *)

Section NumberAlgebra.

Context {R : Rounding}.

Lemma nadd_comm (a b : number) : (a + b)%num = (b + a)%num.
Proof.
  destruct a as [p| | |], b as [q| | |]; try reflexivity.
  cbn [nadd]. f_equal. ring.
Qed.

Lemma nmul_comm (a b : number) : (a * b)%num = (b * a)%num.
Proof.
  destruct a as [p| | |], b as [q| | |]; try reflexivity.
  cbn [nmul]. f_equal. ring.
Qed.

Lemma dot_comm (v w : Vec) : dot v w = dot w v.
Proof. unfold dot. by rewrite (nmul_comm v.1), (nmul_comm v.2). Qed.







(** The laws of zero, for a rounding that leaves zero as it is. *)
Section Zero.

Hypothesis round_0 : round 0 = Fin 0.








End Zero.

(** Moving the triangle and the point by the same vector, and exchanging
    two corners. *)
Lemma sub_translate (v w d : Qc * Qc) :
  sub (qvec (qadd v d)) (qvec (qadd w d)) = sub (qvec v) (qvec w).
Proof.
  destruct v as [vx vy], w as [wx wy], d as [dx dy].
  unfold sub, qvec, qadd. cbn [fst snd nsub nneg nadd].
  f_equal; f_equal; ring.
Qed.

Lemma cartesian_to_barycentric_translate (a b c p d : Qc * Qc) :
  cartesian_to_barycentric (qtri (qadd a d) (qadd b d) (qadd c d))
    (qvec (qadd p d))
  = cartesian_to_barycentric (qtri a b c) (qvec p).
Proof.
  unfold cartesian_to_barycentric, qtri, corner0, corner1, corner2.
  cbn [fst snd]. by rewrite !sub_translate.
Qed.

Lemma cartesian_to_barycentric_swap (t : Triangle) (xy : Vec) :
  cartesian_to_barycentric (corner0 t, corner2 t, corner1 t) xy
  = ((cartesian_to_barycentric t xy).2, (cartesian_to_barycentric t xy).1).
Proof.
  unfold cartesian_to_barycentric, corner0, corner1, corner2.
  cbn [fst snd].
  set (v0 := sub t.2 t.1.1). set (v1 := sub t.1.2 t.1.1).
  set (v2 := sub xy t.1.1).
  rewrite (dot_comm v1 v0), (nmul_comm (dot v1 v1) (dot v0 v0)).
  done.
Qed.

(** [barycentric_to_cartesian] as the value of two expressions without
    division. *)
Lemma barycentric_to_cartesian_eval (t : Triangle) (uv : Vec) :
  barycentric_to_cartesian t uv
  = (eval (inputs t uv) point_x, eval (inputs t uv) point_y).
Proof. reflexivity. Qed.

End NumberAlgebra.

(* ===================================================================== *)
(** ** Points with integer coordinates *)
(* ===================================================================== *)

Section IntegerPoints.

Context {R : Rounding} (N : Z) (HN : exact_integers R N).

Lemma of_Z_sub (a b : Z) :
  (- N <= a - b <= N)%Z -> (of_Z a - of_Z b)%num = of_Z (a - b).
Proof.
  intros H. unfold nsub. unfold of_Z at 2. cbn [nneg]. rewrite zq_opp.
  fold (of_Z (- b)). rewrite (of_Z_add N HN) by lia. f_equal.
Qed.

Lemma product_bound (M p q d : Z) :
  (Z.abs p <= M)%Z -> (Z.abs q <= M)%Z -> (Z.abs d <= M)%Z ->
  (- (2 * M * M) <= p * (q - d) <= 2 * M * M)%Z.
Proof.
  intros Hp Hq Hd.
  assert (- M <= p <= M)%Z as Hp' by lia.
  assert (- (2 * M) <= q - d <= 2 * M)%Z as He by lia.
  generalize dependent (q - d)%Z. intros e He.
  pose proof (Z.mul_nonneg_nonneg (M - p) (2 * M + e)).
  pose proof (Z.mul_nonneg_nonneg (M + p) (2 * M - e)).
  pose proof (Z.mul_nonneg_nonneg (M - p) (2 * M - e)).
  pose proof (Z.mul_nonneg_nonneg (M + p) (2 * M + e)).
  nia.
Qed.

Lemma combination_integers (M a p q c b : Z) :
  (4 * M * M + M <= N)%Z ->
  (Z.abs a <= M)%Z -> (Z.abs p <= M)%Z -> (Z.abs q <= M)%Z ->
  (Z.abs c <= M)%Z -> (Z.abs b <= M)%Z ->
  (of_Z a + (of_Z p * (of_Z c - of_Z a) + of_Z q * (of_Z b - of_Z a)))%num
  = of_Z (a + (p * (c - a) + q * (b - a))).
Proof.
  intros HM Ha Hp Hq Hc Hb.
  pose proof (product_bound M p c a Hp Hc Ha).
  pose proof (product_bound M q b a Hq Hb Ha).
  assert (M <= M * M)%Z by nia.
  rewrite !of_Z_sub by lia.
  rewrite !(of_Z_mul N HN) by lia.
  by rewrite !(of_Z_add N HN) by lia.
Qed.

(** On integers that are small enough every step of
    [barycentric_to_cartesian] is exact. *)
Lemma barycentric_to_cartesian_integers (ax ay bx by' cx cy u v M : Z) :
  Forall (fun z => (Z.abs z <= M)%Z) [ax; ay; bx; by'; cx; cy; u; v] ->
  (4 * M * M + M <= N)%Z ->
  barycentric_to_cartesian (qtri (qp ax ay) (qp bx by') (qp cx cy))
    (qvec (qp u v))
  = qvec (qp (ax + (u * (cx - ax) + v * (bx - ax)))
             (ay + (u * (cy - ay) + v * (by' - ay)))).
Proof.
  intros HM HN'.
  repeat (apply Forall_cons in HM as [? HM]).
  unfold barycentric_to_cartesian, add, mul, sub, qtri, qvec, qp,
    corner0, corner1, corner2.
  cbn [fst snd]. fold (of_Z ax) (of_Z ay) (of_Z bx) (of_Z by') (of_Z cx)
    (of_Z cy) (of_Z u) (of_Z v).
  by rewrite !(combination_integers M).
Qed.

End IntegerPoints.

(* ===================================================================== *)
(** ** The resampling pass, pixel by pixel *)
(* ===================================================================== *)

Section Mapping.

Local Close Scope Qc_scope.

Context {R : Rounding} (N : Z) (HN : exact_integers R N).

Implicit Types (src dst : ImageData) (st dt : Triangle) (s : State)
  (sa da : list byte).

Lemma map_pixel_fill src st dst dt x y s :
  in_triangle (cartesian_to_barycentric dt (nvec x y)) = false ->
  map_pixel src st dst dt x y s = fill_pixel dst x y s.
Proof.
  intros H. unfold map_pixel, fill_pixel.
  change (cartesian_to_barycentric dt (of_nat x, of_nat y))
    with (cartesian_to_barycentric dt (nvec x y)).
  fold (in_triangle (cartesian_to_barycentric dt (nvec x y))).
  by rewrite H.
Qed.

(** The bytes of a pixel inside the destination triangle: the four reads
    at the computed source position. *)
Lemma inside_pixel_sampled src dst st dt s sa da x y :
  data src <> data dst ->
  heap s !! data src = Some sa ->
  heap s !! data dst = Some da ->
  length da = 4 * width dst * height dst ->
  (Z.of_nat (4 * width dst * height dst) <= N)%Z ->
  x < width dst -> y < height dst ->
  in_triangle (cartesian_to_barycentric dt (nvec x y)) = true ->
  exists da',
    heap (map_triangle src st dst dt s) !! data dst = Some da' /\
    pixel_bytes da' (offset (width dst) x y)
    = [sample sa (source_start (width src) st dt x y);
       sample sa (source_start (width src) st dt x y + of_Z 1)%num;
       sample sa (source_start (width src) st dt x y + of_Z 2)%num;
       sample sa (source_start (width src) st dt x y + of_Z 3)%num].
Proof.
  intros Hne Hsa Hda Hlen Hbound Hx Hy Hin.
  destruct (map_triangle_result N HN src st dst dt s sa da
              Hne Hsa Hda Hlen Hbound) as (da' & Hda' & _ & Hpix).
  exists da'. split; [done|]. rewrite (Hpix x y Hx Hy).
  unfold pixel_value. by rewrite Hin.
Qed.

End Mapping.

(* ===================================================================== *)
(** ** The destination as a function of the source *)
(* ===================================================================== *)

Section Render.

Local Close Scope Qc_scope.

Context {R : Rounding}.

Implicit Types (sa da : list byte) (st dt : Triangle).

Lemma length_pixel_value sa sw st dt x y :
  length (pixel_value sa sw st dt x y) = 4.
Proof. unfold pixel_value. by destruct (in_triangle _). Qed.

(** Blocks of equal length laid end to end. *)
Lemma lookup_blocks {A} (f : nat -> list A) (k n i j : nat) :
  (forall i, length (f i) = k) ->
  i < n -> j < k ->
  (seq 0 n ≫= f) !! (i * k + j) = f i !! j.
Proof.
  intros Hk. induction n as [|n IH]; [lia|]. intros Hi Hj.
  rewrite seq_S, bind_app. cbn [mbind list_bind]. rewrite app_nil_r.
  assert (length (seq 0 n ≫= f) = n * k) as Hlen.
  { clear IH Hi. induction n as [|n IH]; [done|].
    rewrite seq_S, bind_app, length_app, IH. cbn. rewrite app_nil_r, Hk.
    lia. }
  destruct (decide (i < n)) as [Hlt|Hge].
  - rewrite lookup_app_l by (rewrite Hlen; nia). by apply IH.
  - assert (i = n) as -> by lia.
    rewrite lookup_app_r by (rewrite Hlen; lia).
    f_equal. rewrite Hlen. lia.
Qed.

Lemma length_blocks {A} (f : nat -> list A) (k n : nat) :
  (forall i, length (f i) = k) -> length (seq 0 n ≫= f) = n * k.
Proof.
  intros Hk. induction n as [|n IH]; [done|].
  rewrite seq_S, bind_app, length_app, IH. cbn. rewrite app_nil_r, Hk. lia.
Qed.

Lemma length_render sa sw st dt w h :
  length (render sa sw st dt w h) = 4 * w * h.
Proof.
  unfold render. rewrite (length_blocks _ (w * 4)); [lia|].
  intros y. apply length_blocks. intros x. apply length_pixel_value.
Qed.

Lemma pixel_bytes_render sa sw st dt w h x y :
  x < w -> y < h ->
  pixel_bytes (render sa sw st dt w h) (offset w x y)
  = pixel_value sa sw st dt x y.
Proof.
  intros Hx Hy. apply list_eq. intros c.
  destruct (decide (c < 4)) as [Hc|Hc].
  - rewrite pixel_bytes_lookup by done. unfold render, offset.
    replace (4 * (x + y * w) + c) with (y * (w * 4) + (x * 4 + c)) by lia.
    rewrite (lookup_blocks _ (w * 4)); try done.
    + by rewrite (lookup_blocks _ 4);
        [|intros; apply length_pixel_value| |].
    + intros y'. apply length_blocks. intros x'. apply length_pixel_value.
    + lia.
  - unfold pixel_bytes. rewrite lookup_take_ge by lia.
    symmetry. apply lookup_ge_None_2. rewrite length_pixel_value. lia.
Qed.

End Render.

(* ===================================================================== *)
(** ** The two undeclared variables *)
(* ===================================================================== *)

Section Globals.

Local Close Scope Qc_scope.

Context {R : Rounding}.

Variables (src : ImageData) (st : Triangle) (dst : ImageData) (dt : Triangle).

Lemma map_pixel_globals x y s :
  src_xy (map_pixel src st dst dt x y s)
  = (if in_triangle (cartesian_to_barycentric dt (nvec x y))
     then Some (barycentric_to_cartesian st
                  (cartesian_to_barycentric dt (nvec x y)))
     else src_xy s) /\
  src_pixel_start (map_pixel src st dst dt x y s)
  = (if in_triangle (cartesian_to_barycentric dt (nvec x y))
     then Some (source_start (width src) st dt x y)
     else src_pixel_start s).
Proof.
  unfold map_pixel.
  change (cartesian_to_barycentric dt (of_nat x, of_nat y))
    with (cartesian_to_barycentric dt (nvec x y)).
  fold (in_triangle (cartesian_to_barycentric dt (nvec x y))).
  by destruct (in_triangle _).
Qed.

Lemma run_globals ps s :
  src_xy (run src st dst dt ps s)
  = from_option
      (fun p => Some (barycentric_to_cartesian st
                        (cartesian_to_barycentric dt (nvec p.1 p.2))))
      (src_xy s)
      (last (filter
               (fun p =>
                  in_triangle
                    (cartesian_to_barycentric dt (nvec p.1 p.2)) = true)
               ps)) /\
  src_pixel_start (run src st dst dt ps s)
  = from_option
      (fun p => Some (source_start (width src) st dt p.1 p.2))
      (src_pixel_start s)
      (last (filter
               (fun p =>
                  in_triangle
                    (cartesian_to_barycentric dt (nvec p.1 p.2)) = true)
               ps)).
Proof.
  induction ps as [|p ps [IH1 IH2]] using rev_ind; [done|].
  rewrite run_snoc, filter_app.
  destruct (map_pixel_globals p.1 p.2 (run src st dst dt ps s)) as [-> ->].
  destruct (in_triangle (cartesian_to_barycentric dt (nvec p.1 p.2))) eqn:E.
  - rewrite filter_cons_True, filter_nil by done. by rewrite last_snoc.
  - rewrite filter_cons_False, filter_nil by (by rewrite E).
    by rewrite app_nil_r.
Qed.

End Globals.

(* ===================================================================== *)
(** ** The coordinate transform: round trip, corners, totality *)
(* ===================================================================== *)

(** C1.  Over exact rational arithmetic: for every triangle with finite
    corners that is not degenerate and every finite point [p], converting
    [p] to barycentric coordinates and back gives [p] again, exactly. *)
Theorem round_trip (a b c p : Qc * Qc) :
  degenerate a b c = false ->
  barycentric_to_cartesian (R := exact_arithmetic) (qtri a b c)
    (cartesian_to_barycentric (R := exact_arithmetic) (qtri a b c) (qvec p))
  = qvec p.
Proof.
  intros H.
  by rewrite cartesian_to_barycentric_finite, barycentric_to_cartesian_qvec,
    combine_barycentric.
Qed.

Lemma round_trip_witness :
  barycentric_to_cartesian (R := exact_arithmetic)
    (qtri (qp 100 100) (qp 100 300) (qp 300 300))
    (cartesian_to_barycentric (R := exact_arithmetic)
       (qtri (qp 100 100) (qp 100 300) (qp 300 300)) (qvec (qp 7 250)))
  = qvec (qp 7 250).
Proof. apply round_trip. vm_compute. reflexivity. Defined.




(** C10.  [barycentric_to_cartesian] has no error path and no
    precondition.  For every rounding, every triangle and every pair of
    coordinates, the infinities and NaN included, its result is the value
    of the two expressions [point_x] and [point_y], that is
    [A + (u (C - A) + v (B - A))] coordinate by coordinate, which are built
    from additions, subtractions and multiplications only: the type of
    expressions has no division.  On integer inputs small enough for the
    arithmetic to be exact the result is that point, whether or not the
    triangle is degenerate, while [cartesian_to_barycentric] has no finite
    result on a triangle whose computed denominator is zero. *)
Theorem barycentric_to_cartesian_total :
  (forall (R : Rounding) (t : Triangle) (uv : Vec),
     barycentric_to_cartesian t uv
     = (eval (inputs t uv) point_x, eval (inputs t uv) point_y)) /\
  (forall (R : Rounding) (N : Z),
     exact_integers R N ->
     forall ax ay bx by' cx cy u v M : Z,
       Forall (fun z => (Z.abs z <= M)%Z) [ax; ay; bx; by'; cx; cy; u; v] ->
       (4 * M * M + M <= N)%Z ->
       barycentric_to_cartesian
         (qtri (qp ax ay) (qp bx by') (qp cx cy)) (qvec (qp u v))
       = qvec (qp (ax + (u * (cx - ax) + v * (bx - ax)))
                  (ay + (u * (cy - ay) + v * (by' - ay))))) /\
  (forall (R : Rounding) (t : Triangle) (xy : Vec),
     is_zero (computed_denominator t) = true ->
     is_finite (cartesian_to_barycentric t xy).1 = false /\
     is_finite (cartesian_to_barycentric t xy).2 = false).
Proof.
  split; [|split].
  - intros R t uv. apply barycentric_to_cartesian_eval.
  - intros R N HN ax ay bx by' cx cy u v M HM HMN.
    by apply (barycentric_to_cartesian_integers N HN _ _ _ _ _ _ _ _ M).
  - intros R t xy. apply zero_denominator_not_finite.
Qed.

Lemma barycentric_to_cartesian_total_witness :
  barycentric_to_cartesian (R := binary64)
    (qtri (qp 0 0) (qp 5 5) (qp 10 10)) (qvec (qp 3 1))
  = qvec (qp (0 + (3 * (10 - 0) + 1 * (5 - 0)))
             (0 + (3 * (10 - 0) + 1 * (5 - 0)))) /\
  is_finite
    (cartesian_to_barycentric (R := binary64)
       (qtri (qp 0 0) (qp 5 5) (qp 10 10)) (qvec (qp 3 1))).1 = false /\
  is_finite
    (cartesian_to_barycentric (R := binary64)
       (qtri (qp 0 0) (qp 5 5) (qp 10 10)) (qvec (qp 3 1))).2 = false.
Proof.
  split.
  - apply (proj1 (proj2 barycentric_to_cartesian_total) binary64 (2 ^ 53)%Z
             exact_integers_binary64 0 0 5 5 10 10 3 1 10)%Z.
    + repeat constructor; vm_compute; discriminate.
    + vm_compute. discriminate.
  - apply (proj2 (proj2 barycentric_to_cartesian_total) binary64).
    vm_compute. reflexivity.
Defined.

(* ===================================================================== *)
(** ** The loop body: pixels outside and inside the triangle *)
(* ===================================================================== *)

(** C4.  A destination pixel whose barycentric coordinates fail the test
    [u >= 0 && v >= 0 && u + v <= 1] gets the four stores of 255 and nothing
    else (no read of the source), and holds four bytes 255 when the call
    returns.  This holds for every rounding that is exact on the integers
    up to the length of the destination array, the doubles among them. *)
Theorem outside_pixel_white (R : Rounding) (N : Z) (src dst : ImageData)
    (st dt : Triangle) (s : State) (da : list byte) (x y : nat) :
  exact_integers R N ->
  (Z.of_nat (4 * width dst * height dst) <= N)%Z ->
  heap s !! data dst = Some da ->
  length da = (4 * width dst * height dst)%nat ->
  (x < width dst)%nat -> (y < height dst)%nat ->
  in_triangle (cartesian_to_barycentric dt (nvec x y)) = false ->
  map_pixel src st dst dt x y s = fill_pixel dst x y s /\
  exists da',
    heap (map_triangle src st dst dt s) !! data dst = Some da' /\
    pixel_bytes da' (offset (width dst) x y) = white.
Proof.
  intros HN Hbound Hda Hlen Hx Hy Hout. split; [by apply map_pixel_fill|].
  destruct (map_triangle_outside N HN src st dst dt s da Hda Hlen Hbound)
    as (da' & Hda' & _ & Hpix).
  exists da'. split; [done|]. by apply Hpix.
Qed.

Lemma outside_pixel_white_witness :
  map_pixel (R := binary64) (source_image 2 2)
    (qtri (qp 0 0) (qp 0 2) (qp 2 2))
    (destination_image 3 3) (qtri (qp 0 0) (qp 0 2) (qp 2 2)) 1 0
    (two_arrays (ramp 16) (ramp 36))
  = fill_pixel (R := binary64) (destination_image 3 3) 1 0
      (two_arrays (ramp 16) (ramp 36)) /\
  exists da',
    heap (map_triangle (R := binary64) (source_image 2 2)
            (qtri (qp 0 0) (qp 0 2) (qp 2 2))
            (destination_image 3 3) (qtri (qp 0 0) (qp 0 2) (qp 2 2))
            (two_arrays (ramp 16) (ramp 36)))
      !! data (destination_image 3 3) = Some da' /\
    pixel_bytes da' (offset (width (destination_image 3 3)) 1 0) = white.
Proof.
  apply (outside_pixel_white binary64 (2 ^ 53) _ _ _ _ _ (ramp 36)).
  - exact exact_integers_binary64.
  - vm_compute. discriminate.
  - vm_compute. reflexivity.
  - vm_compute. reflexivity.
  - vm_compute. lia.
  - vm_compute. lia.
  - vm_compute. reflexivity.
Defined.

(** C5.  A destination pixel inside the destination triangle is copied from
    the source.  The source point is [barycentric_to_cartesian] of the
    pixel's barycentric coordinates, both its coordinates are floored, and
    [source_start] is [4 * (floor sx + floor sy * source width)], all as the
    rounding computes them.  When that number is the index [n] of four
    bytes of the source array, these are the four bytes of the destination
    pixel at [4 * (x + y * destination width)] when the call returns.  The
    source array is not the destination array, and the rounding is exact on
    the integers up to the lengths of the two arrays. *)
Theorem inside_pixel_copied (R : Rounding) (N : Z) (src dst : ImageData)
    (st dt : Triangle) (s : State) (sa da : list byte) (x y n : nat) :
  exact_integers R N ->
  (Z.of_nat (4 * width dst * height dst) <= N)%Z ->
  (Z.of_nat (length sa) <= N)%Z ->
  data src <> data dst ->
  heap s !! data src = Some sa ->
  heap s !! data dst = Some da ->
  length da = (4 * width dst * height dst)%nat ->
  (x < width dst)%nat -> (y < height dst)%nat ->
  in_triangle (cartesian_to_barycentric dt (nvec x y)) = true ->
  index_of
    (PIXEL_WIDTH
     * (floor (barycentric_to_cartesian st
                 (cartesian_to_barycentric dt (nvec x y))).1
        + floor (barycentric_to_cartesian st
                   (cartesian_to_barycentric dt (nvec x y))).2
          * of_nat (width src)))%num
    (length sa)
  = Some n ->
  (n + 4 <= length sa)%nat ->
  exists da',
    heap (map_triangle src st dst dt s) !! data dst = Some da' /\
    pixel_bytes da' (offset (width dst) x y) = pixel_bytes sa n.
Proof.
  intros HN Hbound Hsbound Hne Hsa Hda Hlen Hx Hy Hin Hidx Hn.
  destruct (inside_pixel_sampled N HN src dst st dt s sa da x y)
    as (da' & Hda' & Hpix); try done.
  exists da'. split; [done|]. rewrite Hpix.
  by apply (samples_at_index N HN).
Qed.

Lemma inside_pixel_copied_witness :
  exists da',
    heap (map_triangle (R := binary64) (source_image 2 2)
            (qtri (qp 0 0) (qp 0 1) (qp 1 1))
            (destination_image 3 3) (qtri (qp 0 0) (qp 0 2) (qp 2 2))
            (two_arrays (ramp 16) (ramp 36)))
      !! data (destination_image 3 3) = Some da' /\
    pixel_bytes da' (offset (width (destination_image 3 3)) 1 2)
    = pixel_bytes (ramp 16) 8.
Proof.
  apply (inside_pixel_copied binary64 (2 ^ 53) (source_image 2 2)
           (destination_image 3 3)
           (qtri (qp 0 0) (qp 0 1) (qp 1 1)) (qtri (qp 0 0) (qp 0 2) (qp 2 2))
           (two_arrays (ramp 16) (ramp 36)) (ramp 16) (ramp 36) 1 2 8).
  - exact exact_integers_binary64.
  - vm_compute. discriminate.
  - vm_compute. discriminate.
  - vm_compute. discriminate.
  - vm_compute. reflexivity.
  - vm_compute. reflexivity.
  - vm_compute. reflexivity.
  - vm_compute. lia.
  - vm_compute. lia.
  - vm_compute. reflexivity.
  - vm_compute. reflexivity.
  - vm_compute. lia.
Defined.

(** C3, as a counterexample.  A 2 x 2 source and the triangle
    (0,0), (0,2), (2,2) for both images, in doubles: the destination pixel
    (0, 2) is the corner B, its source point is (0, 2), below the last
    source row.  Clamping would read the source pixel (0, 1), at offset 8,
    whose bytes are 9, 10, 11, 12; the call reads at offset 16, outside the
    array, and stores four zeros. *)
Lemma no_clamping_counterexample :
  in_triangle (R := binary64)
    (cartesian_to_barycentric (R := binary64)
       (qtri (qp 0 0) (qp 0 2) (qp 2 2)) (nvec 0 2))
  = true /\
  strict_equal
    (source_start (R := binary64) 2 (qtri (qp 0 0) (qp 0 2) (qp 2 2))
       (qtri (qp 0 0) (qp 0 2) (qp 2 2)) 0 2)
    (of_Z 16)
  = true /\
  clamped_start 2 2 0 2 = 8%Z /\
  pixel_bytes (ramp 16) 8 = [x09; x0a; x0b; x0c] /\
  exists da',
    heap (map_triangle (R := binary64) (source_image 2 2)
            (qtri (qp 0 0) (qp 0 2) (qp 2 2))
            (destination_image 3 3) (qtri (qp 0 0) (qp 0 2) (qp 2 2))
            (two_arrays (ramp 16) (ramp 36)))
      !! data (destination_image 3 3) = Some da' /\
    pixel_bytes da' (offset 3 0 2) = [x00; x00; x00; x00] /\
    pixel_bytes da' (offset 3 0 2)
    <> pixel_bytes (ramp 16) (Z.to_nat (clamped_start 2 2 0 2)).
Proof.
  split; [vm_compute; reflexivity|].
  split; [vm_compute; reflexivity|].
  split; [vm_compute; reflexivity|].
  split; [vm_compute; reflexivity|].
  eexists. split; [vm_compute; reflexivity|].
  split; [vm_compute; reflexivity|].
  vm_compute. discriminate.
Qed.

(** C3, as the code has it.  A source position outside the source image is
    neither clamped nor rejected: for a destination pixel inside the
    destination triangle the four reads are made at [source_start], the
    flat offset [4 * (floor sx + floor sy * source width)] as computed, and
    at the three numbers after it, and a read at a number that is no index
    of the source array stores a zero.  The source array is not the
    destination array, and the rounding is exact on the integers up to the
    length of the destination array. *)
Theorem unclamped_sampling (R : Rounding) (N : Z) (src dst : ImageData)
    (st dt : Triangle) (s : State) (sa da : list byte) (x y : nat) :
  exact_integers R N ->
  (Z.of_nat (4 * width dst * height dst) <= N)%Z ->
  data src <> data dst ->
  heap s !! data src = Some sa ->
  heap s !! data dst = Some da ->
  length da = (4 * width dst * height dst)%nat ->
  (x < width dst)%nat -> (y < height dst)%nat ->
  in_triangle (cartesian_to_barycentric dt (nvec x y)) = true ->
  exists da',
    heap (map_triangle src st dst dt s) !! data dst = Some da' /\
    pixel_bytes da' (offset (width dst) x y)
    = [sample sa (source_start (width src) st dt x y);
       sample sa (source_start (width src) st dt x y + of_Z 1)%num;
       sample sa (source_start (width src) st dt x y + of_Z 2)%num;
       sample sa (source_start (width src) st dt x y + of_Z 3)%num] /\
    (index_of (source_start (width src) st dt x y) (length sa) = None ->
     index_of (source_start (width src) st dt x y + of_Z 1)%num (length sa)
     = None ->
     index_of (source_start (width src) st dt x y + of_Z 2)%num (length sa)
     = None ->
     index_of (source_start (width src) st dt x y + of_Z 3)%num (length sa)
     = None ->
     pixel_bytes da' (offset (width dst) x y) = [x00; x00; x00; x00]).
Proof.
  intros HN Hbound Hne Hsa Hda Hlen Hx Hy Hin.
  destruct (inside_pixel_sampled N HN src dst st dt s sa da x y)
    as (da' & Hda' & Hpix); try done.
  exists da'. split; [done|]. split; [done|].
  intros H0 H1 H2 H3. rewrite Hpix.
  by rewrite !sample_no_index.
Qed.

Lemma unclamped_sampling_witness :
  exists da',
    heap (map_triangle (R := binary64) (source_image 2 2)
            (qtri (qp 0 0) (qp 0 2) (qp 2 2))
            (destination_image 3 3) (qtri (qp 0 0) (qp 0 2) (qp 2 2))
            (two_arrays (ramp 16) (ramp 36)))
      !! data (destination_image 3 3) = Some da' /\
    pixel_bytes da' (offset (width (destination_image 3 3)) 0 2)
    = [x00; x00; x00; x00].
Proof.
  destruct (unclamped_sampling binary64 (2 ^ 53) (source_image 2 2)
              (destination_image 3 3)
              (qtri (qp 0 0) (qp 0 2) (qp 2 2))
              (qtri (qp 0 0) (qp 0 2) (qp 2 2))
              (two_arrays (ramp 16) (ramp 36)) (ramp 16) (ramp 36) 0 2)
    as (da' & Hda' & _ & Hzero).
  - exact exact_integers_binary64.
  - vm_compute. discriminate.
  - vm_compute. discriminate.
  - vm_compute. reflexivity.
  - vm_compute. reflexivity.
  - vm_compute. reflexivity.
  - vm_compute. lia.
  - vm_compute. lia.
  - vm_compute. reflexivity.
  - exists da'. split; [exact Hda'|]. apply Hzero.
    + vm_compute. reflexivity.
    + vm_compute. reflexivity.
    + vm_compute. reflexivity.
    + vm_compute. reflexivity.
Defined.

(* ===================================================================== *)
(** ** Degenerate triangles *)
(* ===================================================================== *)

(** C2, as a counterexample.  The destination triangle (0,0), (5,5),
    (10,10) is degenerate and its denominator is computed as zero, in
    doubles too; the call returns with every byte of the 2 x 2 destination
    overwritten. *)
Lemma degenerate_counterexample :
  degenerate (qp 0 0) (qp 5 5) (qp 10 10) = true /\
  is_zero
    (computed_denominator (R := binary64) (qtri (qp 0 0) (qp 5 5) (qp 10 10)))
  = true /\
  heap (two_arrays (ramp 16) (ramp 16)) !! data (destination_image 2 2)
  = Some (ramp 16) /\
  heap (map_triangle (R := binary64) (source_image 2 2)
          (qtri (qp 0 0) (qp 0 1) (qp 1 1))
          (destination_image 2 2) (qtri (qp 0 0) (qp 5 5) (qp 10 10))
          (two_arrays (ramp 16) (ramp 16)))
    !! data (destination_image 2 2) = Some (replicate 16 xff) /\
  replicate 16 xff <> ramp 16.
Proof.
  split; [vm_compute; reflexivity|].
  split; [vm_compute; reflexivity|].
  split; [vm_compute; reflexivity|].
  split; [vm_compute; reflexivity|].
  vm_compute. discriminate.
Qed.

(** C2, as the code has it.  No triangle is rejected.  When the denominator
    [dot00 * dot11 - dot01 * dot01] of the destination triangle is computed
    as zero, [cartesian_to_barycentric] returns coordinates that are not
    finite (an infinity or NaN each) for every point, the test fails
    everywhere and the call overwrites the whole destination with bytes
    255.  The rounding is exact on the integers up to the length of the
    destination array. *)
Theorem degenerate_destination_white (R : Rounding) (N : Z)
    (src dst : ImageData) (st dt : Triangle) (s : State) (da : list byte) :
  exact_integers R N ->
  (Z.of_nat (4 * width dst * height dst) <= N)%Z ->
  is_zero (computed_denominator dt) = true ->
  heap s !! data dst = Some da ->
  length da = (4 * width dst * height dst)%nat ->
  (forall xy : Vec,
     is_finite (cartesian_to_barycentric dt xy).1 = false /\
     is_finite (cartesian_to_barycentric dt xy).2 = false /\
     in_triangle (cartesian_to_barycentric dt xy) = false) /\
  heap (map_triangle src st dst dt s) !! data dst
  = Some (replicate (4 * width dst * height dst) xff).
Proof.
  intros HN Hbound Hzero Hda Hlen.
  assert (forall xy : Vec,
            is_finite (cartesian_to_barycentric dt xy).1 = false /\
            is_finite (cartesian_to_barycentric dt xy).2 = false /\
            in_triangle (cartesian_to_barycentric dt xy) = false) as Hout.
  { intros xy.
    destruct (zero_denominator_not_finite dt xy Hzero) as [H1 H2].
    split; [done|]. split; [done|]. by apply in_triangle_not_finite. }
  split; [done|].
  destruct (map_triangle_outside N HN src st dst dt s da Hda Hlen Hbound)
    as (da' & -> & Hlen' & Hpix).
  f_equal. apply (arrays_eq_pixels (width dst) (height dst)); try done.
  - by rewrite length_replicate.
  - intros x y Hx Hy. rewrite Hpix; try done; [|apply Hout].
    symmetry. apply pixel_bytes_replicate. by apply offset_in_range.
Qed.

Lemma degenerate_destination_white_witness :
  heap (map_triangle (R := binary64) (source_image 2 2)
          (qtri (qp 0 0) (qp 0 1) (qp 1 1))
          (destination_image 2 2) (qtri (qp 0 0) (qp 5 5) (qp 10 10))
          (two_arrays (ramp 16) (ramp 16)))
    !! data (destination_image 2 2)
  = Some (replicate
            (4 * width (destination_image 2 2) * height (destination_image 2 2))
            xff).
Proof.
  apply (degenerate_destination_white binary64 (2 ^ 53) (source_image 2 2)
           (destination_image 2 2) (qtri (qp 0 0) (qp 0 1) (qp 1 1))
           (qtri (qp 0 0) (qp 5 5) (qp 10 10))
           (two_arrays (ramp 16) (ramp 16)) (ramp 16)).
  - exact exact_integers_binary64.
  - vm_compute. discriminate.
  - vm_compute. reflexivity.
  - vm_compute. reflexivity.
  - vm_compute. reflexivity.
Defined.

(* ===================================================================== *)
(** ** The call as a whole *)
(* ===================================================================== *)

(** C7.  Two calls with the same images and triangles, on stores where the
    source array has the same contents and the destination array has the
    length of its dimensions, leave the same bytes in the destination
    array, whatever it held before.  In particular a second call after the
    first, with the source contents still the same, changes nothing.  This
    holds for every rounding that is exact on the integers up to the length
    of the destination array, the doubles among them. *)
Theorem map_triangle_idempotent (R : Rounding) (N : Z) (src dst : ImageData)
    (st dt : Triangle) (s1 s2 : State) (sa d1 d2 : list byte) :
  exact_integers R N ->
  (Z.of_nat (4 * width dst * height dst) <= N)%Z ->
  heap s1 !! data src = Some sa ->
  heap s2 !! data src = Some sa ->
  heap s1 !! data dst = Some d1 ->
  heap s2 !! data dst = Some d2 ->
  length d1 = (4 * width dst * height dst)%nat ->
  length d2 = (4 * width dst * height dst)%nat ->
  heap (map_triangle src st dst dt s1) !! data dst
  = heap (map_triangle src st dst dt s2) !! data dst /\
  (heap (map_triangle src st dst dt s1) !! data src = Some sa ->
   heap (map_triangle src st dst dt (map_triangle src st dst dt s1))
     !! data dst
   = heap (map_triangle src st dst dt s1) !! data dst).
Proof.
  intros HN Hbound Hs1 Hs2 Hd1 Hd2 Hl1 Hl2.
  assert (forall t1 t2 e1 e2,
            heap t1 !! data src = Some sa -> heap t2 !! data src = Some sa ->
            heap t1 !! data dst = Some e1 -> heap t2 !! data dst = Some e2 ->
            length e1 = (4 * width dst * height dst)%nat ->
            length e2 = (4 * width dst * height dst)%nat ->
            heap (map_triangle src st dst dt t1) !! data dst
            = heap (map_triangle src st dst dt t2) !! data dst) as Hsame.
  { intros t1 t2 e1 e2 Ht1 Ht2 He1 He2 Hn1 Hn2.
    destruct (decide (data src = data dst)) as [Heq|Hne].
    - apply map_triangle_agree; [congruence|].
      rewrite <- Heq. congruence.
    - destruct (map_triangle_result N HN src st dst dt t1 sa e1)
        as (r1 & -> & Hr1 & Hp1); try done.
      destruct (map_triangle_result N HN src st dst dt t2 sa e2)
        as (r2 & -> & Hr2 & Hp2); try done.
      f_equal. apply (arrays_eq_pixels (width dst) (height dst)); try done.
      intros x y Hx Hy. by rewrite Hp1, Hp2. }
  split; [by apply (Hsame s1 s2 d1 d2)|].
  intros Hs1'.
  pose proof (map_triangle_length src st dst dt s1 (data dst)) as Hlen.
  rewrite Hd1 in Hlen.
  destruct (heap (map_triangle src st dst dt s1) !! data dst) as [d1'|] eqn:E;
    [|done].
  injection Hlen as Hlen. rewrite <- E.
  apply (Hsame _ s1 d1' d1); try done. lia.
Qed.

Lemma map_triangle_idempotent_witness :
  heap (map_triangle (R := binary64) (source_image 2 2)
          (qtri (qp 0 0) (qp 0 1) (qp 1 1))
          (destination_image 3 3) (qtri (qp 0 0) (qp 0 2) (qp 2 2))
          (two_arrays (ramp 16) (ramp 36)))
    !! data (destination_image 3 3)
  = heap (map_triangle (R := binary64) (source_image 2 2)
            (qtri (qp 0 0) (qp 0 1) (qp 1 1))
            (destination_image 3 3) (qtri (qp 0 0) (qp 0 2) (qp 2 2))
            (two_arrays (ramp 16) (replicate 36 x00)))
      !! data (destination_image 3 3).
Proof.
  destruct (map_triangle_idempotent binary64 (2 ^ 53)
              (source_image 2 2) (destination_image 3 3)
              (qtri (qp 0 0) (qp 0 1) (qp 1 1))
              (qtri (qp 0 0) (qp 0 2) (qp 2 2))
              (two_arrays (ramp 16) (ramp 36))
              (two_arrays (ramp 16) (replicate 36 x00))
              (ramp 16) (ramp 36) (replicate 36 x00)) as [Hsame _].
  - exact exact_integers_binary64.
  - vm_compute. discriminate.
  - vm_compute. reflexivity.
  - vm_compute. reflexivity.
  - vm_compute. reflexivity.
  - vm_compute. reflexivity.
  - vm_compute. reflexivity.
  - vm_compute. reflexivity.
  - exact Hsame.
Defined.

(** C9, where the code departs from it.  The call does not only change the
    destination's pixel data: the assignments to [src_xy] and
    [src_pixel_start] have no [var], so they write two variables outside
    the function.  As soon as one pixel of the destination is inside the
    destination triangle, both variables, unset before the call, are set
    when it returns. *)
Theorem map_triangle_assigns_globals (R : Rounding) (src dst : ImageData)
    (st dt : Triangle) (h : gmap loc (list byte)) (x y : nat) :
  (x < width dst)%nat -> (y < height dst)%nat ->
  in_triangle (cartesian_to_barycentric dt (nvec x y)) = true ->
  src_xy (initial h) = None /\
  src_pixel_start (initial h) = None /\
  is_Some (src_xy (map_triangle src st dst dt (initial h))) /\
  is_Some (src_pixel_start (map_triangle src st dst dt (initial h))).
Proof.
  intros Hx Hy Hin. split; [done|]. split; [done|].
  rewrite map_triangle_run.
  destruct (run_globals src st dst dt (pixels (width dst) (height dst))
              (initial h)) as [-> ->].
  assert (is_Some
            (last (filter
                     (fun p : nat * nat =>
                        in_triangle
                          (cartesian_to_barycentric dt (nvec p.1 p.2)) = true)
                     (pixels (width dst) (height dst))))) as [p ->].
  { apply last_is_Some. intros Hnil.
    assert ((x, y) ∈ filter
              (fun p : nat * nat =>
                 in_triangle
                   (cartesian_to_barycentric dt (nvec p.1 p.2)) = true)
              (pixels (width dst) (height dst))) as Hel.
    { apply list_elem_of_filter. split; [done|]. by apply elem_of_pixels. }
    rewrite Hnil in Hel. by apply elem_of_nil in Hel. }
  by split.
Qed.

Lemma map_triangle_assigns_globals_witness :
  src_xy (initial (<[1%positive := ramp 16]> (<[2%positive := ramp 36]> ∅)))
  = None /\
  src_pixel_start
    (initial (<[1%positive := ramp 16]> (<[2%positive := ramp 36]> ∅)))
  = None /\
  is_Some
    (src_xy
       (map_triangle (R := binary64) (source_image 2 2)
          (qtri (qp 0 0) (qp 0 1) (qp 1 1))
          (destination_image 3 3) (qtri (qp 0 0) (qp 0 2) (qp 2 2))
          (initial (<[1%positive := ramp 16]> (<[2%positive := ramp 36]> ∅)))))
  /\
  is_Some
    (src_pixel_start
       (map_triangle (R := binary64) (source_image 2 2)
          (qtri (qp 0 0) (qp 0 1) (qp 1 1))
          (destination_image 3 3) (qtri (qp 0 0) (qp 0 2) (qp 2 2))
          (initial (<[1%positive := ramp 16]> (<[2%positive := ramp 36]> ∅))))).
Proof.
  apply (map_triangle_assigns_globals binary64 (source_image 2 2)
           (destination_image 3 3)
           (qtri (qp 0 0) (qp 0 1) (qp 1 1)) (qtri (qp 0 0) (qp 0 2) (qp 2 2))
           (<[1%positive := ramp 16]> (<[2%positive := ramp 36]> ∅)) 1 2).
  - vm_compute. lia.
  - vm_compute. lia.
  - vm_compute. reflexivity.
Defined.

(* ===================================================================== *)
(** ** Mapping a triangle onto itself *)
(* ===================================================================== *)

Section IdentityDoubles.

Local Close Scope Qc_scope.

#[local] Existing Instance binary64.

(** In doubles the triangle (0,0), (0,10), (10,10) contains the pixel
    [(x, y)] of a 10 x 10 grid exactly when [x <= y], and the source
    position of such a pixel is its own offset. *)
Lemma identity_doubles :
  forallb
    (fun xy : nat * nat =>
       Bool.eqb
         (in_triangle
            (cartesian_to_barycentric (qtri (qp 0 0) (qp 0 10) (qp 10 10))
               (nvec xy.1 xy.2)))
         (xy.1 <=? xy.2)
       && (if xy.1 <=? xy.2
           then match index_of
                        (source_start 10 (qtri (qp 0 0) (qp 0 10) (qp 10 10))
                           (qtri (qp 0 0) (qp 0 10) (qp 10 10)) xy.1 xy.2)
                        400 with
                | Some n => n =? offset 10 xy.1 xy.2
                | None => false
                end
           else true))
    (pixels 10 10)
  = true.
Proof. vm_compute. reflexivity. Qed.

Lemma identity_doubles_at (x y : nat) :
  x < 10 -> y < 10 ->
  in_triangle
    (cartesian_to_barycentric (qtri (qp 0 0) (qp 0 10) (qp 10 10)) (nvec x y))
  = bool_decide (x <= y) /\
  (x <= y ->
   index_of
     (source_start 10 (qtri (qp 0 0) (qp 0 10) (qp 10 10))
        (qtri (qp 0 0) (qp 0 10) (qp 10 10)) x y) 400
   = Some (offset 10 x y)).
Proof.
  intros Hx Hy. pose proof identity_doubles as H.
  rewrite forallb_forall in H.
  assert (In (x, y) (pixels 10 10)) as Hin.
  { apply list_elem_of_In, elem_of_pixels. by cbn. }
  apply H, andb_true_iff in Hin as [Hin Hidx]. cbn [fst snd] in Hin, Hidx.
  apply Bool.eqb_prop in Hin. rewrite Hin.
  destruct (Nat.leb_spec x y) as [Hle|Hgt].
  - split; [symmetry; apply bool_decide_eq_true_2; lia|]. intros _.
    destruct (index_of _ 400) as [n|]; [|done].
    apply Nat.eqb_eq in Hidx. by subst n.
  - split; [symmetry; apply bool_decide_eq_false_2; lia|]. lia.
Qed.

Lemma pixel_value_identity_doubles (sa : list byte) (x y : nat) :
  length sa = 400 -> x < 10 -> y < 10 ->
  pixel_value sa 10 (qtri (qp 0 0) (qp 0 10) (qp 10 10))
    (qtri (qp 0 0) (qp 0 10) (qp 10 10)) x y
  = if bool_decide (x <= y) then pixel_bytes sa (offset 10 x y) else white.
Proof.
  intros Hlen Hx Hy. unfold pixel_value.
  destruct (identity_doubles_at x y Hx Hy) as [-> Hidx].
  destruct (bool_decide (x <= y)) eqn:E; [|done].
  apply bool_decide_eq_true_1 in E.
  apply (samples_at_index (2 ^ 53) exact_integers_binary64).
  - rewrite Hlen. by apply Hidx.
  - rewrite Hlen. pose proof (offset_in_range 10 10 x y Hx Hy). lia.
  - rewrite Hlen. lia.
Qed.

End IdentityDoubles.

(** C8.  Source and destination triangle both (0,0), (0,10), (10,10), both
    images 10 x 10, the source holding any 400 bytes in an array of its
    own: after the call a destination pixel [(x, y)] inside the triangle,
    which is one with [x <= y], has the four bytes of the source pixel
    [(x, y)], and every other destination pixel is white.  This holds in
    doubles and in exact arithmetic. *)
Theorem identity_mapping (R : Rounding) (src dst : ImageData) (s : State)
    (sa da : list byte) :
  R = binary64 \/ R = exact_arithmetic ->
  width src = 10%nat -> height src = 10%nat ->
  width dst = 10%nat -> height dst = 10%nat ->
  data src <> data dst ->
  heap s !! data src = Some sa -> length sa = 400%nat ->
  heap s !! data dst = Some da -> length da = 400%nat ->
  exists da',
    heap (map_triangle src (qtri (qp 0 0) (qp 0 10) (qp 10 10))
            dst (qtri (qp 0 0) (qp 0 10) (qp 10 10)) s) !! data dst
    = Some da' /\
    forall x y : nat,
      (x < 10)%nat -> (y < 10)%nat ->
      in_triangle
        (cartesian_to_barycentric (qtri (qp 0 0) (qp 0 10) (qp 10 10))
           (nvec x y))
      = bool_decide (x <= y)%nat /\
      pixel_bytes da' (offset 10 x y)
      = if bool_decide (x <= y)%nat
        then pixel_bytes sa (offset 10 x y)
        else white.
Proof.
  intros [-> | ->] Hsw Hsh Hdw Hdh Hne Hsa Hls Hda Hld.
  - destruct (map_triangle_result (R := binary64) (2 ^ 53)
                exact_integers_binary64 src
                (qtri (qp 0 0) (qp 0 10) (qp 10 10))
                dst (qtri (qp 0 0) (qp 0 10) (qp 10 10)) s sa da)
      as (da' & Hda' & _ & Hpix); try done.
    { rewrite Hdw, Hdh. exact Hld. }
    { rewrite Hdw, Hdh. lia. }
    exists da'. split; [done|]. intros x y Hx Hy.
    split; [by apply identity_doubles_at|].
    rewrite Hdw, Hdh, Hsw in Hpix. rewrite (Hpix x y Hx Hy).
    by apply pixel_value_identity_doubles.
  - destruct (map_triangle_result (R := exact_arithmetic) 400
                (exact_integers_exact 400) src
                (qtri (qp 0 0) (qp 0 10) (qp 10 10))
                dst (qtri (qp 0 0) (qp 0 10) (qp 10 10)) s sa da)
      as (da' & Hda' & _ & Hpix); try done.
    { rewrite Hdw, Hdh. exact Hld. }
    { rewrite Hdw, Hdh. lia. }
    exists da'. split; [done|]. intros x y Hx Hy.
    split; [by apply identity_inside|].
    rewrite Hdw, Hdh, Hsw in Hpix. rewrite (Hpix x y Hx Hy).
    rewrite pixel_value_identity.
    + by rewrite identity_inside.
    + rewrite Hls. pose proof (offset_in_range 10 10 x y Hx Hy). lia.
Qed.

Lemma identity_mapping_witness :
  exists da',
    heap (map_triangle (R := binary64) (source_image 10 10)
            (qtri (qp 0 0) (qp 0 10) (qp 10 10))
            (destination_image 10 10)
            (qtri (qp 0 0) (qp 0 10) (qp 10 10))
            (two_arrays (ramp 400) (replicate 400 x00)))
      !! data (destination_image 10 10)
    = Some da' /\
    forall x y : nat,
      (x < 10)%nat -> (y < 10)%nat ->
      in_triangle (R := binary64)
        (cartesian_to_barycentric (R := binary64)
           (qtri (qp 0 0) (qp 0 10) (qp 10 10)) (nvec x y))
      = bool_decide (x <= y)%nat /\
      pixel_bytes da' (offset 10 x y)
      = if bool_decide (x <= y)%nat
        then pixel_bytes (ramp 400) (offset 10 x y)
        else white.
Proof.
  apply (identity_mapping binary64 (source_image 10 10)
           (destination_image 10 10)
           (two_arrays (ramp 400) (replicate 400 x00))
           (ramp 400) (replicate 400 x00)).
  - left. reflexivity.
  - reflexivity.
  - reflexivity.
  - reflexivity.
  - reflexivity.
  - vm_compute. discriminate.
  - vm_compute. reflexivity.
  - vm_compute. reflexivity.
  - vm_compute. reflexivity.
  - vm_compute. reflexivity.
Defined.

(* ===================================================================== *)
(** ** Further properties of the coordinate transform *)
(* ===================================================================== *)

(** [dot] and [add] are commutative on all numbers, the infinities and NaN
    included, for every rounding. *)
Theorem dot_add_commutative (R : Rounding) (v w : Vec) :
  dot v w = dot w v /\ add v w = add w v.
Proof.
  split; [apply dot_comm|].
  unfold add. by rewrite (nadd_comm v.1), (nadd_comm v.2).
Qed.

(** The other round trip, over exact rational arithmetic: on a triangle
    that is not degenerate, the barycentric coordinates of the point
    [A + u (C - A) + v (B - A)] are [(u, v)] again. *)
Theorem round_trip_coordinates (a b c uv : Qc * Qc) :
  degenerate a b c = false ->
  cartesian_to_barycentric (R := exact_arithmetic) (qtri a b c)
    (barycentric_to_cartesian (R := exact_arithmetic) (qtri a b c) (qvec uv))
  = qvec uv.
Proof.
  intros H.
  by rewrite barycentric_to_cartesian_qvec, cartesian_to_barycentric_finite,
    barycentric_combine.
Qed.

Lemma round_trip_coordinates_witness :
  cartesian_to_barycentric (R := exact_arithmetic)
    (qtri (qp 100 100) (qp 100 300) (qp 300 300))
    (barycentric_to_cartesian (R := exact_arithmetic)
       (qtri (qp 100 100) (qp 100 300) (qp 300 300)) (qvec (qp 2 (-3))))
  = qvec (qp 2 (-3)).
Proof. apply round_trip_coordinates. vm_compute. reflexivity. Defined.

(** Over exact rational arithmetic the corners of a triangle that is not
    degenerate have the coordinates (0, 0), (0, 1) and (1, 0). *)
Theorem corner_coordinates_exact (a b c : Qc * Qc) :
  degenerate a b c = false ->
  cartesian_to_barycentric (R := exact_arithmetic) (qtri a b c) (qvec a)
  = qvec (0, 0) /\
  cartesian_to_barycentric (R := exact_arithmetic) (qtri a b c) (qvec b)
  = qvec (0, 1) /\
  cartesian_to_barycentric (R := exact_arithmetic) (qtri a b c) (qvec c)
  = qvec (1, 0).
Proof.
  intros H. pose proof (denominator_nonzero _ _ _ H) as Hd.
  rewrite !cartesian_to_barycentric_finite by done.
  destruct a as [ax ay], b as [bx by'], c as [cx cy].
  unfold barycentric, numerator_u, numerator_v, denominator, qdot, qsub in *.
  cbv [fst snd] in *.
  repeat split; f_equal; f_equal; field; exact Hd.
Qed.

Lemma corner_coordinates_exact_witness :
  cartesian_to_barycentric (R := exact_arithmetic)
    (qtri (qp 0 0) (qp 0 1) (qp 7 0)) (qvec (qp 0 0)) = qvec (0, 0) /\
  cartesian_to_barycentric (R := exact_arithmetic)
    (qtri (qp 0 0) (qp 0 1) (qp 7 0)) (qvec (qp 0 1)) = qvec (0, 1) /\
  cartesian_to_barycentric (R := exact_arithmetic)
    (qtri (qp 0 0) (qp 0 1) (qp 7 0)) (qvec (qp 7 0)) = qvec (1, 0).
Proof. apply corner_coordinates_exact. vm_compute. reflexivity. Defined.

(** Over exact rational arithmetic [cartesian_to_barycentric] returns
    finite coordinates exactly when the triangle is not degenerate, and on
    a degenerate triangle it returns NaN twice and the inside test fails.
    In doubles neither direction holds: on the collinear corners (0, 0),
    (0.1, 0.1), (0.3, 0.3) the denominator is computed as [2 ^ -60], the
    coordinates of the pixel (0, 0) are finite and the pixel passes the
    test; on the triangle (0, 0), (0, 2 ^ 600), (2 ^ 600, 0), which is
    not degenerate, the dot products overflow and both coordinates are
    NaN. *)
Theorem finite_iff_not_degenerate :
  (forall a b c p : Qc * Qc,
     ((exists uv,
         cartesian_to_barycentric (R := exact_arithmetic) (qtri a b c) (qvec p)
         = qvec uv)
      <-> degenerate a b c = false) /\
     (degenerate a b c = true ->
      cartesian_to_barycentric (R := exact_arithmetic) (qtri a b c) (qvec p)
      = (NaN, NaN) /\
      in_triangle (R := exact_arithmetic)
        (cartesian_to_barycentric (R := exact_arithmetic)
           (qtri a b c) (qvec p))
      = false)) /\
  (degenerate (0, 0)
     (double (Q2Qc (1 # 10)), double (Q2Qc (1 # 10)))
     (double (Q2Qc (3 # 10)), double (Q2Qc (3 # 10))) = true /\
   strict_equal
     (computed_denominator (R := binary64)
        (qtri (0, 0)
           (double (Q2Qc (1 # 10)), double (Q2Qc (1 # 10)))
           (double (Q2Qc (3 # 10)), double (Q2Qc (3 # 10)))))
     (Fin (pow2 (-60)))
   = true /\
   cartesian_to_barycentric (R := binary64)
     (qtri (0, 0)
        (double (Q2Qc (1 # 10)), double (Q2Qc (1 # 10)))
        (double (Q2Qc (3 # 10)), double (Q2Qc (3 # 10))))
     (nvec 0 0)
   = (Fin 0, Fin 0) /\
   in_triangle (R := binary64)
     (cartesian_to_barycentric (R := binary64)
        (qtri (0, 0)
           (double (Q2Qc (1 # 10)), double (Q2Qc (1 # 10)))
           (double (Q2Qc (3 # 10)), double (Q2Qc (3 # 10))))
        (nvec 0 0))
   = true) /\
  (degenerate (qp 0 0) (qp 0 (2 ^ 600)) (qp (2 ^ 600) 0) = false /\
   cartesian_to_barycentric (R := binary64)
     (qtri (qp 0 0) (qp 0 (2 ^ 600)) (qp (2 ^ 600) 0)) (nvec 1 1)
   = (NaN, NaN)).
Proof.
  split; [|split].
  - intros a b c p. split; [split|].
    + intros [uv Huv]. destruct (degenerate a b c) eqn:E; [|done].
      rewrite cartesian_to_barycentric_degenerate in Huv by done.
      discriminate.
    + intros H. exists (barycentric a b c p).
      by apply cartesian_to_barycentric_finite.
    + intros H. by rewrite cartesian_to_barycentric_degenerate.
  - split; [vm_compute; reflexivity|].
    split; [vm_compute; reflexivity|].
    split; [vm_compute; reflexivity|].
    vm_compute. reflexivity.
  - split; [vm_compute; reflexivity|].
    vm_compute. reflexivity.
Qed.

Lemma finite_iff_not_degenerate_witness :
  cartesian_to_barycentric (R := exact_arithmetic)
    (qtri (qp 0 0) (qp 5 5) (qp 10 10)) (qvec (qp 3 1))
  = (NaN, NaN) /\
  in_triangle (R := exact_arithmetic)
    (cartesian_to_barycentric (R := exact_arithmetic)
       (qtri (qp 0 0) (qp 5 5) (qp 10 10)) (qvec (qp 3 1)))
  = false.
Proof.
  apply (proj2 (proj1 finite_iff_not_degenerate
                  (qp 0 0) (qp 5 5) (qp 10 10) (qp 3 1))).
  vm_compute. reflexivity.
Defined.

(** Over exact rational arithmetic the inside test of [map_triangle]
    accepts exactly the points of the closed triangle: the points
    [A + u (C - A) + v (B - A)] with [0 <= u], [0 <= v] and [u + v <= 1],
    edges and corners included.  In doubles a point of an edge can fail
    the test: the pixel (2, 7) lies on the edge from B to C of the triangle
    (0,0), (0,7), (9,7) and passes the exact test, but the doubles give
    [u + v > 1]. *)
Theorem inside_test_closed_triangle :
  (forall a b c p : Qc * Qc,
     degenerate a b c = false ->
     in_triangle (R := exact_arithmetic)
       (cartesian_to_barycentric (R := exact_arithmetic)
          (qtri a b c) (qvec p))
     = true
     <-> exists u v : Qc,
           0 <= u /\ 0 <= v /\ u + v <= 1 /\ p = combine a b c (u, v)) /\
  (in_triangle (R := exact_arithmetic)
     (cartesian_to_barycentric (R := exact_arithmetic)
        (qtri (qp 0 0) (qp 0 7) (qp 9 7)) (nvec 2 7))
   = true /\
   in_triangle (R := binary64)
     (cartesian_to_barycentric (R := binary64)
        (qtri (qp 0 0) (qp 0 7) (qp 9 7)) (nvec 2 7))
   = false /\
   nle
     (nadd (R := binary64)
        (cartesian_to_barycentric (R := binary64)
           (qtri (qp 0 0) (qp 0 7) (qp 9 7)) (nvec 2 7)).1
        (cartesian_to_barycentric (R := binary64)
           (qtri (qp 0 0) (qp 0 7) (qp 9 7)) (nvec 2 7)).2)
     (Fin 1)
   = false).
Proof.
  split.
  - intros a b c p H. rewrite cartesian_to_barycentric_finite by done.
    rewrite in_triangle_qvec. split.
    + intros (Hu & Hv & Huv).
      exists (barycentric a b c p).1, (barycentric a b c p).2.
      repeat split; try done.
      rewrite <- surjective_pairing. by rewrite combine_barycentric.
    + intros (u & v & Hu & Hv & Huv & ->).
      by rewrite barycentric_combine.
  - split; [vm_compute; reflexivity|].
    split; [vm_compute; reflexivity|].
    vm_compute. reflexivity.
Qed.

Lemma inside_test_closed_triangle_witness :
  in_triangle (R := exact_arithmetic)
    (cartesian_to_barycentric (R := exact_arithmetic)
       (qtri (qp 100 100) (qp 100 300) (qp 300 300)) (qvec (qp 100 300)))
  = true
  <-> exists u v : Qc,
        0 <= u /\ 0 <= v /\ u + v <= 1 /\
        qp 100 300 = combine (qp 100 100) (qp 100 300) (qp 300 300) (u, v).
Proof.
  apply (proj1 inside_test_closed_triangle). vm_compute. reflexivity.
Defined.

(** Over exact rational arithmetic, corner [i] of the destination triangle
    is mapped to corner [i] of the source triangle, whatever the source
    triangle.  In doubles the image of a corner can miss it: with the
    destination triangle (0,0), (0,1), (7,0) and the source triangle
    (0,0), (0,10), (10,0) the corner B is mapped to a point below
    (0, 10), whose floor is (0, 9). *)
Theorem corners_correspond :
  (forall a' b' c' a b c : Qc * Qc,
     degenerate a b c = false ->
     barycentric_to_cartesian (R := exact_arithmetic) (qtri a' b' c')
       (cartesian_to_barycentric (R := exact_arithmetic)
          (qtri a b c) (qvec a))
     = qvec a' /\
     barycentric_to_cartesian (R := exact_arithmetic) (qtri a' b' c')
       (cartesian_to_barycentric (R := exact_arithmetic)
          (qtri a b c) (qvec b))
     = qvec b' /\
     barycentric_to_cartesian (R := exact_arithmetic) (qtri a' b' c')
       (cartesian_to_barycentric (R := exact_arithmetic)
          (qtri a b c) (qvec c))
     = qvec c') /\
  (strict_equal
     (barycentric_to_cartesian (R := binary64)
        (qtri (qp 0 0) (qp 0 10) (qp 10 0))
        (cartesian_to_barycentric (R := binary64)
           (qtri (qp 0 0) (qp 0 1) (qp 7 0)) (qvec (qp 0 1)))).2
     (of_Z 10)
   = false /\
   strict_equal
     (floor
        (barycentric_to_cartesian (R := binary64)
           (qtri (qp 0 0) (qp 0 10) (qp 10 0))
           (cartesian_to_barycentric (R := binary64)
              (qtri (qp 0 0) (qp 0 1) (qp 7 0)) (qvec (qp 0 1)))).2)
     (of_Z 9)
   = true).
Proof.
  split.
  - intros a' b' c' a b c H.
    pose proof (denominator_nonzero _ _ _ H) as Hd.
    rewrite !cartesian_to_barycentric_finite, !barycentric_to_cartesian_qvec
      by done.
    destruct a as [ax ay], b as [bx by'], c as [cx cy],
      a' as [ax' ay'], b' as [bx' by''], c' as [cx' cy'].
    unfold combine, barycentric, numerator_u, numerator_v, denominator,
      qdot, qsub in *.
    cbv [fst snd] in *.
    repeat split; f_equal; f_equal; field; exact Hd.
  - split; vm_compute; reflexivity.
Qed.

Lemma corners_correspond_witness :
  barycentric_to_cartesian (R := exact_arithmetic)
    (qtri (qp 0 0) (qp 0 1) (qp 1 1))
    (cartesian_to_barycentric (R := exact_arithmetic)
       (qtri (qp 100 100) (qp 100 300) (qp 300 300)) (qvec (qp 100 100)))
  = qvec (qp 0 0) /\
  barycentric_to_cartesian (R := exact_arithmetic)
    (qtri (qp 0 0) (qp 0 1) (qp 1 1))
    (cartesian_to_barycentric (R := exact_arithmetic)
       (qtri (qp 100 100) (qp 100 300) (qp 300 300)) (qvec (qp 100 300)))
  = qvec (qp 0 1) /\
  barycentric_to_cartesian (R := exact_arithmetic)
    (qtri (qp 0 0) (qp 0 1) (qp 1 1))
    (cartesian_to_barycentric (R := exact_arithmetic)
       (qtri (qp 100 100) (qp 100 300) (qp 300 300)) (qvec (qp 300 300)))
  = qvec (qp 1 1).
Proof.
  apply (proj1 corners_correspond). vm_compute. reflexivity.
Defined.

(** The barycentric coordinates do not change when the triangle and the
    point are moved by the same vector, and exchanging the corners B and C
    exchanges [u] and [v]; both for every rounding and also on degenerate
    triangles. *)
Theorem translation_and_swap (R : Rounding) (a b c p d : Qc * Qc) :
  cartesian_to_barycentric (qtri (qadd a d) (qadd b d) (qadd c d))
    (qvec (qadd p d))
  = cartesian_to_barycentric (qtri a b c) (qvec p) /\
  cartesian_to_barycentric (qtri a c b) (qvec p)
  = ((cartesian_to_barycentric (qtri a b c) (qvec p)).2,
     (cartesian_to_barycentric (qtri a b c) (qvec p)).1).
Proof.
  split; [apply cartesian_to_barycentric_translate|].
  apply (cartesian_to_barycentric_swap (qtri a b c)).
Qed.

(** Over exact rational arithmetic the map from destination points to
    source points is affine: a point on the line through [p] and [q] goes
    to the point at the same ratio on the line through their images.  In
    doubles this holds up to rounding only: from the triangle (0,0), (0,1),
    (7,0) to the triangle (0,0), (0,10), (10,0), with [p] = (0, 0),
    [q] = (0, 1) and ratio 1, the exact image has [y] = 10 and the computed
    one has not. *)
Theorem mapping_affine :
  (forall (a' b' c' a b c p q : Qc * Qc) (t : Qc),
     degenerate a b c = false ->
     barycentric_to_cartesian (R := exact_arithmetic) (qtri a' b' c')
       (cartesian_to_barycentric (R := exact_arithmetic) (qtri a b c)
          (qvec (qadd p (qscale t (qsub q p)))))
     = qvec
         (qadd (combine a' b' c' (barycentric a b c p))
            (qscale t
               (qsub (combine a' b' c' (barycentric a b c q))
                     (combine a' b' c' (barycentric a b c p)))))) /\
  (strict_equal
     (barycentric_to_cartesian (R := exact_arithmetic)
        (qtri (qp 0 0) (qp 0 10) (qp 10 0))
        (cartesian_to_barycentric (R := exact_arithmetic)
           (qtri (qp 0 0) (qp 0 1) (qp 7 0))
           (qvec (qadd (qp 0 0) (qscale 1 (qsub (qp 0 1) (qp 0 0))))))).2
     (of_Z 10)
   = true /\
   strict_equal
     (barycentric_to_cartesian (R := binary64)
        (qtri (qp 0 0) (qp 0 10) (qp 10 0))
        (cartesian_to_barycentric (R := binary64)
           (qtri (qp 0 0) (qp 0 1) (qp 7 0))
           (qvec (qadd (qp 0 0) (qscale 1 (qsub (qp 0 1) (qp 0 0))))))).2
     (of_Z 10)
   = false).
Proof.
  split.
  - intros a' b' c' a b c p q t H.
    pose proof (denominator_nonzero _ _ _ H) as Hd.
    rewrite !cartesian_to_barycentric_finite, !barycentric_to_cartesian_qvec
      by done.
    f_equal.
    destruct a as [ax ay], b as [bx by'], c as [cx cy],
      a' as [ax' ay'], b' as [bx' by''], c' as [cx' cy'],
      p as [px py], q as [qx qy].
    unfold combine, barycentric, numerator_u, numerator_v, denominator,
      qdot, qsub, qadd, qscale in *.
    cbv [fst snd] in *.
    f_equal; field; exact Hd.
  - split; vm_compute; reflexivity.
Qed.

Lemma mapping_affine_witness :
  barycentric_to_cartesian (R := exact_arithmetic)
    (qtri (qp 0 0) (qp 0 1) (qp 1 1))
    (cartesian_to_barycentric (R := exact_arithmetic)
       (qtri (qp 100 100) (qp 100 300) (qp 300 300))
       (qvec (qadd (qp 120 250)
                (qscale (zq 3) (qsub (qp 200 260) (qp 120 250))))))
  = qvec
      (qadd (combine (qp 0 0) (qp 0 1) (qp 1 1)
               (barycentric (qp 100 100) (qp 100 300) (qp 300 300)
                  (qp 120 250)))
         (qscale (zq 3)
            (qsub (combine (qp 0 0) (qp 0 1) (qp 1 1)
                     (barycentric (qp 100 100) (qp 100 300) (qp 300 300)
                        (qp 200 260)))
                  (combine (qp 0 0) (qp 0 1) (qp 1 1)
                     (barycentric (qp 100 100) (qp 100 300) (qp 300 300)
                        (qp 120 250)))))).
Proof. apply (proj1 mapping_affine). vm_compute. reflexivity. Defined.

(* ===================================================================== *)
(** ** Where the samples are taken *)
(* ===================================================================== *)

(** Over exact rational arithmetic, when the three corners of the source
    triangle are within the source image, every pixel inside the
    destination triangle is read from a position within the source image,
    so no read falls outside the source array: the destination pixel gets
    the bytes of the source pixel [(floor sx, floor sy)].  In doubles a
    read can still fall outside: with 8 x 8 images, the source triangle
    (4,3), (3,0), (2,0) and the destination triangle (2,2), (7,6), (7,1),
    the pixel (7, 2) passes the test, its source [y] is a negative number
    above -1, the position is -24 and four zeros are stored. *)
Theorem sampling_in_bounds :
  (forall (src dst : ImageData) (a' b' c' a b c : Qc * Qc) (s : State)
          (sa da : list byte) (x y : nat),
     inside_image (width src) (height src) a' = true ->
     inside_image (width src) (height src) b' = true ->
     inside_image (width src) (height src) c' = true ->
     length sa = (4 * width src * height src)%nat ->
     data src <> data dst ->
     heap s !! data src = Some sa ->
     heap s !! data dst = Some da ->
     length da = (4 * width dst * height dst)%nat ->
     (x < width dst)%nat -> (y < height dst)%nat ->
     in_triangle (R := exact_arithmetic)
       (cartesian_to_barycentric (R := exact_arithmetic)
          (qtri a b c) (nvec x y))
     = true ->
     (0 <= Qfloor (combine a' b' c' (barycentric a b c (qpix x y))).1
      < Z.of_nat (width src))%Z /\
     (0 <= Qfloor (combine a' b' c' (barycentric a b c (qpix x y))).2
      < Z.of_nat (height src))%Z /\
     exists da',
       heap (map_triangle (R := exact_arithmetic)
               src (qtri a' b' c') dst (qtri a b c) s) !! data dst
       = Some da' /\
       pixel_bytes da' (offset (width dst) x y)
       = pixel_bytes sa
           (offset (width src)
              (Z.to_nat
                 (Qfloor
                    (combine a' b' c' (barycentric a b c (qpix x y))).1))
              (Z.to_nat
                 (Qfloor
                    (combine a' b' c' (barycentric a b c (qpix x y))).2))))
  /\
  (inside_image 8 8 (qp 4 3) = true /\
   inside_image 8 8 (qp 3 0) = true /\
   inside_image 8 8 (qp 2 0) = true /\
   in_triangle (R := binary64)
     (cartesian_to_barycentric (R := binary64)
        (qtri (qp 2 2) (qp 7 6) (qp 7 1)) (nvec 7 2))
   = true /\
   strict_equal
     (source_start (R := binary64) 8 (qtri (qp 4 3) (qp 3 0) (qp 2 0))
        (qtri (qp 2 2) (qp 7 6) (qp 7 1)) 7 2)
     (of_Z (-24))
   = true /\
   exists da',
     heap (map_triangle (R := binary64) (source_image 8 8)
             (qtri (qp 4 3) (qp 3 0) (qp 2 0))
             (destination_image 8 8) (qtri (qp 2 2) (qp 7 6) (qp 7 1))
             (two_arrays (ramp 256) (ramp 256)))
       !! data (destination_image 8 8) = Some da' /\
     pixel_bytes da' (offset 8 7 2) = [x00; x00; x00; x00]).
Proof.
  split.
  - intros src dst a' b' c' a b c s sa da x y
      Ha Hb Hc Hls Hne Hsa Hda Hld Hx Hy Hin.
    pose proof Hin as Hnd. rewrite nvec_qvec in Hnd.
    apply in_triangle_nondegenerate in Hnd.
    pose proof Hin as Huv.
    rewrite nvec_qvec, cartesian_to_barycentric_finite in Huv by done.
    apply in_triangle_qvec in Huv as (Hu & Hv & Huv).
    unfold inside_image in Ha, Hb, Hc.
    rewrite !andb_true_iff, !Qle_bool_iff in Ha, Hb, Hc.
    destruct Ha as [[[Ha1 Ha2] Ha3] Ha4], Hb as [[[Hb1 Hb2] Hb3] Hb4],
      Hc as [[[Hc1 Hc2] Hc3] Hc4].
    assert (forall (q m : Qc) (n : Z),
              m = zq (n - 1) -> 0 <= q <= m -> (0 <= Qfloor q < n)%Z) as Hfl.
    { intros q m n -> [H0 H1]. split.
      - change 0%Z with (Qfloor 0). by apply Qfloor_resp_le.
      - apply Qfloor_resp_le in H1. rewrite Qfloor_zq in H1. lia. }
    set (sp := combine a' b' c' (barycentric a b c (qpix x y))) in *.
    assert (0 <= Qfloor sp.1 < Z.of_nat (width src))%Z as Hfx.
    { apply (Hfl _ _ _ eq_refl). unfold sp, combine. cbn [fst snd].
      apply convex_bound; try done; by split. }
    assert (0 <= Qfloor sp.2 < Z.of_nat (height src))%Z as Hfy.
    { apply (Hfl _ _ _ eq_refl). unfold sp, combine. cbn [fst snd].
      apply convex_bound; try done; by split. }
    split; [done|]. split; [done|].
    destruct (inside_pixel_sampled (R := exact_arithmetic)
                (Z.of_nat (4 * width dst * height dst))
                (exact_integers_exact _)
                src dst (qtri a' b' c') (qtri a b c) s sa da x y)
      as (da' & Hda' & Hpix); try done.
    exists da'. split; [done|]. rewrite Hpix.
    rewrite source_start_finite by done. fold sp.
    rewrite samples_in_range.
    + f_equal. unfold offset. lia.
    + lia.
    + rewrite Hls. nia.
  - split; [vm_compute; reflexivity|].
    split; [vm_compute; reflexivity|].
    split; [vm_compute; reflexivity|].
    split; [vm_compute; reflexivity|].
    split; [vm_compute; reflexivity|].
    eexists. split; vm_compute; reflexivity.
Qed.

Lemma sampling_in_bounds_witness :
  exists da',
    heap (map_triangle (R := exact_arithmetic) (source_image 2 2)
            (qtri (qp 0 0) (qp 0 1) (qp 1 1))
            (destination_image 3 3) (qtri (qp 0 0) (qp 0 2) (qp 2 2))
            (two_arrays (ramp 16) (ramp 36)))
      !! data (destination_image 3 3) = Some da' /\
    pixel_bytes da' (offset (width (destination_image 3 3)) 1 2)
    = pixel_bytes (ramp 16)
        (offset (width (source_image 2 2))
           (Z.to_nat
              (Qfloor (combine (qp 0 0) (qp 0 1) (qp 1 1)
                         (barycentric (qp 0 0) (qp 0 2) (qp 2 2)
                            (qpix 1 2))).1))
           (Z.to_nat
              (Qfloor (combine (qp 0 0) (qp 0 1) (qp 1 1)
                         (barycentric (qp 0 0) (qp 0 2) (qp 2 2)
                            (qpix 1 2))).2))).
Proof.
  apply (proj1 sampling_in_bounds (source_image 2 2) (destination_image 3 3)
           (qp 0 0) (qp 0 1) (qp 1 1) (qp 0 0) (qp 0 2) (qp 2 2)
           (two_arrays (ramp 16) (ramp 36)) (ramp 16) (ramp 36) 1%nat 2%nat).
  - vm_compute. reflexivity.
  - vm_compute. reflexivity.
  - vm_compute. reflexivity.
  - vm_compute. reflexivity.
  - vm_compute. discriminate.
  - vm_compute. reflexivity.
  - vm_compute. reflexivity.
  - vm_compute. reflexivity.
  - vm_compute. lia.
  - vm_compute. lia.
  - vm_compute. reflexivity.
Defined.

(** Over exact rational arithmetic, a finite triangle mapped onto itself
    between two images of the same dimensions copies the pixels inside the
    triangle from the same position and whitens the others.  In doubles a
    pixel can be copied from a neighbour: with the triangle (0,0), (0,1),
    (3,5) on 4 x 6 images the pixel (1, 2) passes the test, its source [y]
    is the double below 2, and it receives the bytes of the pixel (1, 1). *)
Theorem identity_any_triangle :
  (forall (src dst : ImageData) (a b c : Qc * Qc) (s : State)
          (sa da : list byte) (x y : nat),
     width src = width dst -> height src = height dst ->
     data src <> data dst ->
     heap s !! data src = Some sa ->
     length sa = (4 * width src * height src)%nat ->
     heap s !! data dst = Some da ->
     length da = (4 * width dst * height dst)%nat ->
     (x < width dst)%nat -> (y < height dst)%nat ->
     exists da',
       heap (map_triangle (R := exact_arithmetic)
               src (qtri a b c) dst (qtri a b c) s) !! data dst
       = Some da' /\
       pixel_bytes da' (offset (width dst) x y)
       = if in_triangle (R := exact_arithmetic)
              (cartesian_to_barycentric (R := exact_arithmetic)
                 (qtri a b c) (nvec x y))
         then pixel_bytes sa (offset (width dst) x y)
         else white) /\
  (in_triangle (R := binary64)
     (cartesian_to_barycentric (R := binary64)
        (qtri (qp 0 0) (qp 0 1) (qp 3 5)) (nvec 1 2))
   = true /\
   index_of
     (source_start (R := binary64) 4 (qtri (qp 0 0) (qp 0 1) (qp 3 5))
        (qtri (qp 0 0) (qp 0 1) (qp 3 5)) 1 2)
     96
   = Some (offset 4 1 1) /\
   exists da',
     heap (map_triangle (R := binary64) (source_image 4 6)
             (qtri (qp 0 0) (qp 0 1) (qp 3 5))
             (destination_image 4 6) (qtri (qp 0 0) (qp 0 1) (qp 3 5))
             (two_arrays (ramp 96) (replicate 96 x00)))
       !! data (destination_image 4 6) = Some da' /\
     pixel_bytes da' (offset 4 1 2) = pixel_bytes (ramp 96) (offset 4 1 1) /\
     pixel_bytes da' (offset 4 1 2) <> pixel_bytes (ramp 96) (offset 4 1 2)).
Proof.
  split.
  - intros src dst a b c s sa da x y Hw Hh Hne Hsa Hls Hda Hld Hx Hy.
    destruct (map_triangle_result (R := exact_arithmetic)
                (Z.of_nat (4 * width dst * height dst))
                (exact_integers_exact _)
                src (qtri a b c) dst (qtri a b c) s sa da)
      as (da' & Hda' & _ & Hpix); try done.
    exists da'. split; [done|]. rewrite Hpix by done. rewrite Hw.
    apply pixel_value_identity. rewrite Hls, Hw, Hh.
    by apply offset_in_range.
  - split; [vm_compute; reflexivity|].
    split; [vm_compute; reflexivity|].
    eexists. split; [vm_compute; reflexivity|].
    split; [vm_compute; reflexivity|].
    vm_compute. discriminate.
Qed.

Lemma identity_any_triangle_witness :
  exists da',
    heap (map_triangle (R := exact_arithmetic) (source_image 3 3)
            (qtri (qp 0 0) (qp 0 2) (qp 2 2))
            (destination_image 3 3) (qtri (qp 0 0) (qp 0 2) (qp 2 2))
            (two_arrays (ramp 36) (replicate 36 x00)))
      !! data (destination_image 3 3) = Some da' /\
    pixel_bytes da' (offset (width (destination_image 3 3)) 1 2)
    = if in_triangle (R := exact_arithmetic)
           (cartesian_to_barycentric (R := exact_arithmetic)
              (qtri (qp 0 0) (qp 0 2) (qp 2 2)) (nvec 1 2))
      then pixel_bytes (ramp 36) (offset (width (destination_image 3 3)) 1 2)
      else white.
Proof.
  apply (proj1 identity_any_triangle (source_image 3 3)
           (destination_image 3 3) (qp 0 0) (qp 0 2) (qp 2 2)
           (two_arrays (ramp 36) (replicate 36 x00))
           (ramp 36) (replicate 36 x00) 1%nat 2%nat).
  - reflexivity.
  - reflexivity.
  - vm_compute. discriminate.
  - vm_compute. reflexivity.
  - vm_compute. reflexivity.
  - vm_compute. reflexivity.
  - vm_compute. reflexivity.
  - vm_compute. lia.
  - vm_compute. lia.
Defined.

(* ===================================================================== *)
(** ** The call as a map over the destination grid *)
(* ===================================================================== *)

(** The destination array after the call is [render] of the source array:
    a map over the destination grid, independent of what the destination
    held.  The source array is not the destination array, and the rounding
    is exact on the integers up to the length of the destination array. *)
Theorem map_triangle_render (R : Rounding) (N : Z) (src dst : ImageData)
    (st dt : Triangle) (s : State) (sa da : list byte) :
  exact_integers R N ->
  (Z.of_nat (4 * width dst * height dst) <= N)%Z ->
  data src <> data dst ->
  heap s !! data src = Some sa ->
  heap s !! data dst = Some da ->
  length da = (4 * width dst * height dst)%nat ->
  heap (map_triangle src st dst dt s) !! data dst
  = Some (render sa (width src) st dt (width dst) (height dst)).
Proof.
  intros HN Hbound Hne Hsa Hda Hlen.
  destruct (map_triangle_result N HN src st dst dt s sa da)
    as (da' & -> & Hlen' & Hpix); try done.
  f_equal. apply (arrays_eq_pixels (width dst) (height dst)); try done.
  - apply length_render.
  - intros x y Hx Hy. by rewrite Hpix, pixel_bytes_render.
Qed.

Lemma map_triangle_render_witness :
  heap (map_triangle (R := binary64) (source_image 2 2)
          (qtri (qp 0 0) (qp 0 1) (qp 1 1))
          (destination_image 3 3) (qtri (qp 0 0) (qp 0 2) (qp 2 2))
          (two_arrays (ramp 16) (ramp 36)))
    !! data (destination_image 3 3)
  = Some (render (R := binary64) (ramp 16) (width (source_image 2 2))
            (qtri (qp 0 0) (qp 0 1) (qp 1 1))
            (qtri (qp 0 0) (qp 0 2) (qp 2 2))
            (width (destination_image 3 3)) (height (destination_image 3 3))).
Proof.
  apply (map_triangle_render binary64 (2 ^ 53) (source_image 2 2)
           (destination_image 3 3)
           (qtri (qp 0 0) (qp 0 1) (qp 1 1)) (qtri (qp 0 0) (qp 0 2) (qp 2 2))
           (two_arrays (ramp 16) (ramp 36)) (ramp 16) (ramp 36)).
  - exact exact_integers_binary64.
  - vm_compute. discriminate.
  - vm_compute. discriminate.
  - vm_compute. reflexivity.
  - vm_compute. reflexivity.
  - vm_compute. reflexivity.
Defined.

(** The order of the two loops does not matter: running the loop body over
    the pixels of the destination in any order, each pixel once, leaves the
    same destination array as the call.  The source array is not the
    destination array, and the rounding is exact on the integers up to the
    length of the destination array. *)
Theorem loop_order_irrelevant (R : Rounding) (N : Z) (src dst : ImageData)
    (st dt : Triangle) (s : State) (sa da : list byte)
    (ps : list (nat * nat)) :
  exact_integers R N ->
  (Z.of_nat (4 * width dst * height dst) <= N)%Z ->
  ps ≡ₚ pixels (width dst) (height dst) ->
  data src <> data dst ->
  heap s !! data src = Some sa ->
  heap s !! data dst = Some da ->
  length da = (4 * width dst * height dst)%nat ->
  heap (run src st dst dt ps s) !! data dst
  = heap (map_triangle src st dst dt s) !! data dst.
Proof.
  intros HN Hbound Hperm Hne Hsa Hda Hlen.
  destruct (map_triangle_result N HN src st dst dt s sa da)
    as (da' & -> & Hlen' & Hpix); try done.
  destruct (run_invariant N HN src st dst dt
              (fun s => heap s !! data src = Some sa)
              (fun p bs => bs = pixel_value sa (width src) st dt p.1 p.2)
              (4 * width dst * height dst)%nat)
    with (ps := ps) (s := s) (da := da)
    as (da'' & -> & Hlen'' & _ & Hq); try done.
  - intros p s' Hs'. by rewrite map_pixel_frame.
  - intros [x y] s' d d' Hs' Hd Hn Ho Hd'. cbn [fst snd] in *.
    unfold pixel_value.
    destruct (in_triangle (cartesian_to_barycentric dt (nvec x y))) eqn:Hin.
    + rewrite (map_pixel_inside N HN src st dst dt x y s' sa d) in Hd'
        by (done || lia).
      injection Hd' as <-. apply lookup_four_eq. lia.
    + rewrite (map_pixel_outside N HN src st dst dt x y s' d) in Hd'
        by (done || lia).
      injection Hd' as <-. apply lookup_four_eq. lia.
  - rewrite Hperm. apply NoDup_pixels.
  - intros p Hp. rewrite Hperm in Hp.
    apply elem_of_pixels in Hp as [Hx Hy]. split; [done|].
    by apply offset_in_range.
  - f_equal. apply (arrays_eq_pixels (width dst) (height dst)); try done.
    intros x y Hx Hy. rewrite Hpix by done. apply (Hq (x, y)).
    rewrite Hperm. by apply elem_of_pixels.
Qed.

Lemma loop_order_irrelevant_witness :
  heap (run (R := binary64) (source_image 2 2)
          (qtri (qp 0 0) (qp 0 1) (qp 1 1))
          (destination_image 2 2) (qtri (qp 0 0) (qp 0 2) (qp 2 2))
          [(1, 1); (1, 0); (0, 1); (0, 0)]%nat
          (two_arrays (ramp 16) (ramp 16)))
    !! data (destination_image 2 2)
  = heap (map_triangle (R := binary64) (source_image 2 2)
            (qtri (qp 0 0) (qp 0 1) (qp 1 1))
            (destination_image 2 2) (qtri (qp 0 0) (qp 0 2) (qp 2 2))
            (two_arrays (ramp 16) (ramp 16)))
      !! data (destination_image 2 2).
Proof.
  apply (loop_order_irrelevant binary64 (2 ^ 53) (source_image 2 2)
           (destination_image 2 2)
           (qtri (qp 0 0) (qp 0 1) (qp 1 1)) (qtri (qp 0 0) (qp 0 2) (qp 2 2))
           (two_arrays (ramp 16) (ramp 16)) (ramp 16) (ramp 16)).
  - exact exact_integers_binary64.
  - vm_compute. discriminate.
  - change (pixels (width (destination_image 2 2))
              (height (destination_image 2 2)))
      with [(0, 0); (0, 1); (1, 0); (1, 1)]%nat.
    symmetry. exact (Permutation_rev [(0, 0); (0, 1); (1, 0); (1, 1)]%nat).
  - vm_compute. discriminate.
  - vm_compute. reflexivity.
  - vm_compute. reflexivity.
  - vm_compute. reflexivity.
Defined.

(** A destination without pixels: when its width or its height is 0 the
    call changes nothing at all. *)
Theorem map_triangle_empty (R : Rounding) (src dst : ImageData)
    (st dt : Triangle) (s : State) :
  width dst = 0%nat \/ height dst = 0%nat ->
  map_triangle src st dst dt s = s.
Proof.
  intros H. rewrite map_triangle_run.
  assert (pixels (width dst) (height dst) = []) as ->; [|done].
  unfold pixels. destruct H as [-> | ->]; [done|].
  induction (seq 0 (width dst)) as [|x xs IH]; [done|].
  by rewrite bind_cons, IH.
Qed.

Lemma map_triangle_empty_witness :
  map_triangle (R := binary64) (source_image 2 2)
    (qtri (qp 0 0) (qp 0 1) (qp 1 1))
    (destination_image 3 0) (qtri (qp 0 0) (qp 0 2) (qp 2 2))
    (two_arrays (ramp 16) [])
  = two_arrays (ramp 16) [].
Proof. apply map_triangle_empty. right. reflexivity. Defined.

(* ===================================================================== *)
(** ** Effects of one iteration and of the call *)
(* ===================================================================== *)

(** One iteration writes nothing but the four bytes of its own pixel: the
    other bytes of the destination array, its length and all other arrays
    are as before, whether or not the source array is the destination
    array.  The rounding is exact on the integers up to the last offset of
    the pixel. *)
Theorem map_pixel_writes_own_pixel (R : Rounding) (N : Z)
    (src dst : ImageData) (st dt : Triangle) (x y : nat) (s : State)
    (da : list byte) :
  exact_integers R N ->
  (Z.of_nat (offset (width dst) x y + 3) <= N)%Z ->
  heap s !! data dst = Some da ->
  (exists da',
     heap (map_pixel src st dst dt x y s) !! data dst = Some da' /\
     length da' = length da /\
     forall j : nat,
       (j < offset (width dst) x y \/ offset (width dst) x y + 4 <= j)%nat ->
       da' !! j = da !! j) /\
  (forall l : loc,
     l <> data dst ->
     heap (map_pixel src st dst dt x y s) !! l = heap s !! l).
Proof.
  intros HN Hbound Hda. split.
  - destruct (map_pixel_dst N HN src st dst dt x y s da Hbound Hda)
      as (b0 & b1 & b2 & b3 & ->).
    eexists. split; [done|]. split; [apply length_four|].
    intros j Hj. by apply lookup_four_ne.
  - intros l Hl. by apply map_pixel_frame.
Qed.

Lemma map_pixel_writes_own_pixel_witness :
  exists da',
    heap (map_pixel (R := binary64) (source_image 2 2)
            (qtri (qp 0 0) (qp 0 1) (qp 1 1))
            (destination_image 3 3) (qtri (qp 0 0) (qp 0 2) (qp 2 2)) 1 2
            (two_arrays (ramp 16) (ramp 36)))
      !! data (destination_image 3 3) = Some da' /\
    length da' = length (ramp 36) /\
    forall j : nat,
      (j < offset (width (destination_image 3 3)) 1 2 \/
       offset (width (destination_image 3 3)) 1 2 + 4 <= j)%nat ->
      da' !! j = ramp 36 !! j.
Proof.
  apply (map_pixel_writes_own_pixel binary64 (2 ^ 53) (source_image 2 2)
           (destination_image 3 3)
           (qtri (qp 0 0) (qp 0 1) (qp 1 1)) (qtri (qp 0 0) (qp 0 2) (qp 2 2))
           1 2 (two_arrays (ramp 16) (ramp 36)) (ramp 36)).
  - exact exact_integers_binary64.
  - vm_compute. discriminate.
  - vm_compute. reflexivity.
Defined.

(** The call assigns the two variables [src_xy] and [src_pixel_start] that
    it does not declare: when it returns they hold the source point and the
    source position of the last pixel, in loop order, inside the
    destination triangle, and they are untouched when no pixel is
    inside. *)
Theorem globals_after_call (R : Rounding) (src dst : ImageData)
    (st dt : Triangle) (s : State) :
  src_xy (map_triangle src st dst dt s)
  = from_option
      (fun p => Some (barycentric_to_cartesian st
                        (cartesian_to_barycentric dt (nvec p.1 p.2))))
      (src_xy s)
      (last (inside_pixels dt (width dst) (height dst))) /\
  src_pixel_start (map_triangle src st dst dt s)
  = from_option
      (fun p => Some (source_start (width src) st dt p.1 p.2))
      (src_pixel_start s)
      (last (inside_pixels dt (width dst) (height dst))).
Proof. rewrite map_triangle_run. apply run_globals. Qed.

(** Among the pixel arrays the call changes only the destination's: every
    other array of the store, the source's among them when it is another
    array, is the same after the call, and every array keeps its length.
    The triangles and the [width] and [height] of the two images are values
    that the call only reads. *)
Theorem map_triangle_only_writes_destination (R : Rounding)
    (src dst : ImageData) (st dt : Triangle) (s : State) :
  (forall l : loc,
     l <> data dst ->
     heap (map_triangle src st dst dt s) !! l = heap s !! l) /\
  (data src <> data dst ->
   heap (map_triangle src st dst dt s) !! data src = heap s !! data src) /\
  (forall l : loc,
     length <$> heap (map_triangle src st dst dt s) !! l
     = length <$> heap s !! l).
Proof.
  split; [|split].
  - intros l Hl. by apply map_triangle_frame.
  - intros Hne. by apply map_triangle_frame.
  - intros l. apply map_triangle_length.
Qed.

Lemma map_triangle_only_writes_destination_witness :
  heap (map_triangle (R := binary64) (source_image 2 2)
          (qtri (qp 0 0) (qp 0 1) (qp 1 1))
          (destination_image 3 3) (qtri (qp 0 0) (qp 0 2) (qp 2 2))
          (two_arrays (ramp 16) (ramp 36)))
    !! data (source_image 2 2)
  = heap (two_arrays (ramp 16) (ramp 36)) !! data (source_image 2 2).
Proof.
  apply (proj1 (proj2 (map_triangle_only_writes_destination binary64
                         (source_image 2 2) (destination_image 3 3)
                         (qtri (qp 0 0) (qp 0 1) (qp 1 1))
                         (qtri (qp 0 0) (qp 0 2) (qp 2 2))
                         (two_arrays (ramp 16) (ramp 36))))).
  vm_compute. discriminate.
Defined.

(** When the source array is the destination array the source is not
    preserved: a pixel that fails the inside test is white in the source
    array after the call.  The rounding is exact on the integers up to the
    length of the array. *)
Theorem in_place_overwrites_source (R : Rounding) (N : Z)
    (src dst : ImageData) (st dt : Triangle) (s : State) (sa : list byte)
    (x y : nat) :
  exact_integers R N ->
  (Z.of_nat (4 * width dst * height dst) <= N)%Z ->
  data src = data dst ->
  heap s !! data src = Some sa ->
  length sa = (4 * width dst * height dst)%nat ->
  (x < width dst)%nat -> (y < height dst)%nat ->
  in_triangle (cartesian_to_barycentric dt (nvec x y)) = false ->
  exists sa',
    heap (map_triangle src st dst dt s) !! data src = Some sa' /\
    pixel_bytes sa' (offset (width dst) x y) = white.
Proof.
  intros HN Hbound Heq Hsa Hlen Hx Hy Hout. rewrite Heq in *.
  destruct (map_triangle_outside N HN src st dst dt s sa Hsa Hlen Hbound)
    as (sa' & Hsa' & _ & Hpix).
  exists sa'. split; [done|]. by apply Hpix.
Qed.

Lemma in_place_overwrites_source_witness :
  exists sa',
    heap (map_triangle (R := binary64) (destination_image 3 3)
            (qtri (qp 0 0) (qp 0 2) (qp 2 2))
            (destination_image 3 3) (qtri (qp 0 0) (qp 0 2) (qp 2 2))
            (two_arrays (ramp 16) (ramp 36)))
      !! data (destination_image 3 3) = Some sa' /\
    pixel_bytes sa' (offset (width (destination_image 3 3)) 1 0) = white.
Proof.
  apply (in_place_overwrites_source binary64 (2 ^ 53) (destination_image 3 3)
           (destination_image 3 3) (qtri (qp 0 0) (qp 0 2) (qp 2 2))
           (qtri (qp 0 0) (qp 0 2) (qp 2 2))
           (two_arrays (ramp 16) (ramp 36)) (ramp 36) 1 0).
  - exact exact_integers_binary64.
  - vm_compute. discriminate.
  - reflexivity.
  - vm_compute. reflexivity.
  - vm_compute. reflexivity.
  - vm_compute. lia.
  - vm_compute. lia.
  - vm_compute. reflexivity.
Defined.
